(** * Flow model of boolean query nodes (searchlib/queryeval/flow.h)

    A shallow embedding of the cost-based child ordering for AND, OR and
    AND-NOT nodes, and the properties its specification states.

    Numbers.  The C++ code computes with [double].  In the main model a
    [double] is an exact rational ([Q], compared with [==]): it gives each
    result by the expression the code evaluates, over the well-formed
    domain of estimates in [0,1] and non-negative costs; rounding, NaN and
    infinities are outside of it.  The properties that rounding decides
    (the laws of the comparators, the estimate of a node for two orders of
    its children, the cost of an order against the cost of its neighbour)
    are stated of a second model, in which the functions are written over
    IEEE binary64 (module [binary64], on the primitive floats).  The BM25
    executor, whose score involves a logarithm, computes with real numbers.

    Containers.  A child container is a [list]; [children[i]] is
    [nth_error].  [std::sort] belongs to the C++ standard library: it is
    modelled by a stable insertion sort.  A library may return tied
    children, and children compared by a comparator that is no strict weak
    ordering, in another order; the theorems on sorted output only use that
    the output is a permutation of the input without adjacent inversion. *)

From Stdlib Require Import Floats.
From Stdlib Require Import Reals.
From Stdlib Require Lra.
From Stdlib Require Import QArith Qfield Lqa Lia List Bool Arith.
From Stdlib Require Import Permutation Sorted Morphisms Setoid.
Import ListNotations.
Open Scope Q_scope.
Set Warnings "-inexact-float".

Abbreviation double := Q.

(** [x > y] on doubles, as a boolean. *)
Definition Qgtb (x y : double) : bool := negb (Qle_bool x y).

(** [x < y] on doubles, as a boolean. *)
Definition Qltb (x y : double) : bool := negb (Qle_bool y x).

(** The shape shared by AndFlow, OrFlow and AndNotFlow: what
    [flow::estimate_of] and [flow::ordered_cost_of] ask of their [F flow]
    argument. *)
Class FLOW (F : Type) : Type := {
  F_add : F -> double -> F;
  F_flow : F -> double;
  F_strict : F -> bool;
  F_estimate : F -> double
}.

(** ** namespace flow *)
Module flow.

(** An adapter reads estimate, cost and strict cost off a child of type [T]. *)
Record Adapter (T : Type) : Type := mkAdapter {
  estimate : T -> double;
  cost : T -> double;
  strict_cost : T -> double
}.
Arguments mkAdapter {T}.
Arguments estimate {T}.
Arguments cost {T}.
Arguments strict_cost {T}.

(** The shape the default adapter expects of a child
    ([std::unique_ptr<Blueprint>]): its three numbers. *)
Record Blueprint : Type := mkBlueprint {
  bp_estimate : double;
  bp_cost : double;
  bp_strict_cost : double
}.

Definition DefaultAdapter : Adapter Blueprint :=
  {| estimate := bp_estimate; cost := bp_cost; strict_cost := bp_strict_cost |}.

(** [IndirectAdapter]: a child is an index into [data].  An index outside
    [data] is undefined behaviour in the source and reads as 0 here;
    [make_index] never produces one. *)
Definition at_index {T} (data : list T) (f : T -> double) (child : nat) : double :=
  match nth_error data child with
  | Some c => f c
  | None => 0
  end.

Definition IndirectAdapter {T} (adapter : Adapter T) (data : list T) : Adapter nat :=
  {| estimate := at_index data (estimate adapter);
     cost := at_index data (cost adapter);
     strict_cost := at_index data (strict_cost adapter) |}.

Definition make_index {T} (children : list T) : list nat :=
  seq 0 (length children).

Definition MinAndCost {T} (adapter : Adapter T) (a b : T) : bool :=
  Qgtb ((1 - estimate adapter a) * cost adapter b)
       ((1 - estimate adapter b) * cost adapter a).

Definition MinOrCost {T} (adapter : Adapter T) (a b : T) : bool :=
  Qgtb (estimate adapter a * cost adapter b)
       (estimate adapter b * cost adapter a).

Definition MinOrStrictCost {T} (adapter : Adapter T) (a b : T) : bool :=
  Qgtb (estimate adapter a * strict_cost adapter b)
       (estimate adapter b * strict_cost adapter a).

Definition estimate_of {T F} `{FLOW F}
    (adapter : Adapter T) (children : list T) (flow : F) : double :=
  F_estimate
    (fold_left (fun fl child => F_add fl (estimate adapter child)) children flow).

(** [std::sort(first, last, comp)]. *)
Fixpoint insert_sorted {T} (comp : T -> T -> bool) (x : T) (l : list T) : list T :=
  match l with
  | [] => [x]
  | h :: t => if comp x h then x :: h :: t else h :: insert_sorted comp x t
  end.

Definition std_sort {T} (comp : T -> T -> bool) (l : list T) : list T :=
  fold_left (fun acc x => insert_sorted comp x acc) l [].

Definition sort {T} (ORDER : Adapter T -> T -> T -> bool)
    (adapter : Adapter T) (children : list T) : list T :=
  std_sort (ORDER adapter) children.

Definition sort_partial {T} (ORDER : Adapter T -> T -> T -> bool)
    (adapter : Adapter T) (children : list T) (offset : nat) : list T :=
  if (offset <? length children)%nat
  then firstn offset children ++ std_sort (ORDER adapter) (skipn offset children)
  else children.

(** One round of the loop of [ordered_cost_of], on the pair (cost, flow). *)
Definition cost_step {T F} `{FLOW F} (adapter : Adapter T)
    (st : double * F) (child : T) : double * F :=
  let child_cost :=
    if F_strict (snd st) then strict_cost adapter child else cost adapter child in
  (fst st + F_flow (snd st) * child_cost,
   F_add (snd st) (estimate adapter child)).

Definition ordered_cost_of {T F} `{FLOW F}
    (adapter : Adapter T) (children : list T) (flow : F) : double :=
  fst (fold_left (cost_step adapter) children (0, flow)).

(** The local variables of [select_strict_and_child]. *)
Record select_state : Type := mkSelect {
  sel_idx : nat;
  sel_cost : double;
  sel_best_idx : nat;
  sel_best_diff : double;
  sel_est : double
}.

Definition select_init : select_state :=
  {| sel_idx := 0; sel_cost := 0; sel_best_idx := 0; sel_best_diff := 0;
     sel_est := 1 |}.

Definition select_step {T} (adapter : Adapter T)
    (st : select_state) (child : T) : select_state :=
  let child_cost := sel_est st * cost adapter child in
  let child_strict_cost := strict_cost adapter child in
  let child_est := estimate adapter child in
  let '(best_idx, best_diff) :=
    if (sel_idx st =? 0)%nat
    then (sel_best_idx st, child_strict_cost - child_cost)
    else
      let my_diff :=
        (child_strict_cost + child_est * sel_cost st) - (sel_cost st + child_cost) in
      if Qltb my_diff (sel_best_diff st)
      then (sel_idx st, my_diff)
      else (sel_best_idx st, sel_best_diff st) in
  {| sel_idx := S (sel_idx st);
     sel_cost := sel_cost st + child_cost;
     sel_best_idx := best_idx;
     sel_best_diff := best_diff;
     sel_est := sel_est st * child_est |}.

Definition select_strict_and_child {T}
    (adapter : Adapter T) (children : list T) : nat :=
  sel_best_idx (fold_left (select_step adapter) children select_init).

End flow.

(** [children[idx] = v] on a container; an index past the end leaves the
    list as it is. *)
Fixpoint assign {T} (children : list T) (idx : nat) (v : T) : list T :=
  match children, idx with
  | [], _ => []
  | _ :: t, O => v :: t
  | h :: t, S i => h :: assign t i v
  end.

(** The loop [for (; idx > 0; --idx) children[idx] = children[idx-1];]. *)
Fixpoint shift_up {T} (children : list T) (idx : nat) : list T :=
  match idx with
  | O => children
  | S i =>
      match nth_error children i with
      | Some prev => shift_up (assign children (S i) prev) i
      | None => children
      end
  end.

(** ** class AndFlow *)
Module AndFlow.

Record t : Type := mk { _flow : double; _strict : bool; _first : bool }.

Definition make (inp : double) (strict : bool) : t :=
  {| _flow := inp; _strict := strict; _first := true |}.

Definition add (f : t) (est : double) : t :=
  {| _flow := _flow f * est; _strict := _strict f; _first := false |}.

Definition flow (f : t) : double := _flow f.

Definition strict (f : t) : bool := _strict f && _first f.

Definition estimate (f : t) : double := if _first f then 0 else _flow f.

Definition sort {T} (adapter : flow.Adapter T) (children : list T)
    (strict : bool) : list T :=
  let children := flow.sort flow.MinAndCost adapter children in
  if strict && (1 <? length children)%nat then
    let idx := flow.select_strict_and_child adapter children in
    match nth_error children idx with
    | Some the_one => assign (shift_up children idx) 0 the_one
    | None => children
    end
  else children.

End AndFlow.

(** ** class OrFlow *)
Module OrFlow.

Record t : Type := mk { _flow : double; _strict : bool; _first : bool }.

Definition make (inp : double) (strict : bool) : t :=
  {| _flow := inp; _strict := strict; _first := true |}.

Definition add (f : t) (est : double) : t :=
  {| _flow := _flow f * (1 - est); _strict := _strict f; _first := false |}.

Definition flow (f : t) : double := _flow f.

Definition strict (f : t) : bool := _strict f.

Definition estimate (f : t) : double := if _first f then 0 else 1 - _flow f.

Definition sort {T} (adapter : flow.Adapter T) (children : list T)
    (strict : bool) : list T :=
  if strict
  then flow.sort flow.MinOrStrictCost adapter children
  else flow.sort flow.MinOrCost adapter children.

End OrFlow.

(** ** class AndNotFlow *)
Module AndNotFlow.

Record t : Type := mk { _flow : double; _strict : bool; _first : bool }.

Definition make (inp : double) (strict : bool) : t :=
  {| _flow := inp; _strict := strict; _first := true |}.

Definition add (f : t) (est : double) : t :=
  {| _flow := _flow f * (if _first f then est else 1 - est);
     _strict := _strict f; _first := false |}.

Definition flow (f : t) : double := _flow f.

Definition strict (f : t) : bool := _strict f && _first f.

Definition estimate (f : t) : double := if _first f then 0 else _flow f.

Definition sort {T} (adapter : flow.Adapter T) (children : list T)
    (strict : bool) : list T :=
  flow.sort_partial flow.MinOrCost adapter children 1.

End AndNotFlow.

#[export] Instance AndFlow_FLOW : FLOW AndFlow.t :=
  {| F_add := AndFlow.add; F_flow := AndFlow.flow;
     F_strict := AndFlow.strict; F_estimate := AndFlow.estimate |}.

#[export] Instance OrFlow_FLOW : FLOW OrFlow.t :=
  {| F_add := OrFlow.add; F_flow := OrFlow.flow;
     F_strict := OrFlow.strict; F_estimate := OrFlow.estimate |}.

#[export] Instance AndNotFlow_FLOW : FLOW AndNotFlow.t :=
  {| F_add := AndNotFlow.add; F_flow := AndNotFlow.flow;
     F_strict := AndNotFlow.strict; F_estimate := AndNotFlow.estimate |}.

(** ** struct FlowMixin<FLOW>

    What the mixin needs of its parameter on top of the accumulator
    interface: the constructor [FLOW(in, strict)] and the static [sort]. *)
Class FlowKind (F : Type) `{FLOW F} : Type := {
  F_make : double -> bool -> F;
  F_sort : forall T : Type, flow.Adapter T -> list T -> bool -> list T
}.

#[export] Instance AndFlow_kind : FlowKind AndFlow.t :=
  {| F_make := AndFlow.make; F_sort := @AndFlow.sort |}.

#[export] Instance OrFlow_kind : FlowKind OrFlow.t :=
  {| F_make := OrFlow.make; F_sort := @OrFlow.sort |}.

#[export] Instance AndNotFlow_kind : FlowKind AndNotFlow.t :=
  {| F_make := AndNotFlow.make; F_sort := @AndNotFlow.sort |}.

Module FlowMixin.

Definition estimate_of (F : Type) `{FlowKind F} {T}
    (adapter : flow.Adapter T) (children : list T) : double :=
  flow.estimate_of adapter children (F_make 1 false : F).

Definition cost_of (F : Type) `{FlowKind F} {T}
    (adapter : flow.Adapter T) (children : list T) (strict : bool) : double :=
  let my_adapter := flow.IndirectAdapter adapter children in
  let order := flow.make_index children in
  let order := F_sort nat my_adapter order strict in
  flow.ordered_cost_of my_adapter order (F_make 1 strict : F).

End FlowMixin.

(** * Specification-side notions *)

(** The well-formed domain of a child: estimate in [0,1], costs not negative. *)
Definition unit_interval (x : double) : Prop := 0 <= x /\ x <= 1.

Definition well_formed {T} (adapter : flow.Adapter T) (child : T) : Prop :=
  unit_interval (flow.estimate adapter child) /\
  0 <= flow.cost adapter child /\
  0 <= flow.strict_cost adapter child.

(** Product and sum of a sequence of numbers. *)
Fixpoint Qprod (l : list double) : double :=
  match l with
  | [] => 1
  | x :: t => x * Qprod t
  end.

Fixpoint Qsum (l : list double) : double :=
  match l with
  | [] => 0
  | x :: t => x + Qsum t
  end.

Definition estimates {T} (adapter : flow.Adapter T) (children : list T) : list double :=
  map (flow.estimate adapter) children.

Definition complements (es : list double) : list double :=
  map (fun e => 1 - e) es.

(** A positive filter matching 9 documents in 10 at cost 1, and an
    exclusion matching every other document at cost 2. *)
Definition and_not_children : list flow.Blueprint :=
  [ flow.mkBlueprint (9 # 10) 1 1; flow.mkBlueprint (5 # 10) 2 2 ].

(** Two children are tied under a comparator when neither is less than the
    other. *)
Definition incomparable {T} (comp : T -> T -> bool) (a b : T) : Prop :=
  comp a b = false /\ comp b a = false.

(** The laws of a strict weak ordering at three elements: irreflexive,
    transitive, ties transitive. *)
Definition strict_weak_order_at {T} (comp : T -> T -> bool) (a b c : T) : Prop :=
  comp a a = false /\
  (comp a b = true -> comp b c = true -> comp a c = true) /\
  (incomparable comp a b -> incomparable comp b c -> incomparable comp a c).

(** Sample children. *)
Definition never_cost1 : flow.Blueprint := flow.mkBlueprint 0 1 1.
Definition never_cost2 : flow.Blueprint := flow.mkBlueprint 0 2 2.
Definition half_cost1 : flow.Blueprint := flow.mkBlueprint (1 # 2) 1 1.
Definition half_cost2 : flow.Blueprint := flow.mkBlueprint (1 # 2) 2 2.
Definition always_free : flow.Blueprint := flow.mkBlueprint 1 0 0.
Definition never_free : flow.Blueprint := flow.mkBlueprint 0 0 0.

(** [no_inversion comp a b]: [a] may stand before [b] in a sequence sorted
    by [comp], since [b] is not less than [a]. *)
Definition no_inversion {T} (comp : T -> T -> bool) (a b : T) : Prop :=
  comp b a = false.

Definition asymmetric {T} (comp : T -> T -> bool) : Prop :=
  forall a b, comp a b = true -> comp b a = false.

(** The cost an accumulator charges for a child: the strict cost while
    [strict()] holds, the cost otherwise. *)
Definition charged {T F} `{FLOW F} (adapter : flow.Adapter T)
    (fl : F) (child : T) : double :=
  if F_strict fl then flow.strict_cost adapter child else flow.cost adapter child.

(** The accumulator as child [i] of [order] finds it: [fl] after the [add]
    of the [i] children before it. *)
Definition flow_before {T F} `{FLOW F} (adapter : flow.Adapter T)
    (order : list T) (fl : F) (i : nat) : F :=
  fold_left F_add (estimates adapter (firstn i order)) fl.

(** The sum over [order] of flow times charged cost, each taken before the
    child's [add]. *)
Definition flow_weighted_sum {T F} `{FLOW F} (adapter : flow.Adapter T)
    (order : list T) (fl : F) : double :=
  Qsum (map (fun i =>
               flow.at_index order
                 (fun child =>
                    F_flow (flow_before adapter order fl i)
                    * charged adapter (flow_before adapter order fl i) child) i)
            (seq 0 (length order))).

(** The product of the estimates of the children before index [i]. *)
Definition estimate_before {T} (adapter : flow.Adapter T)
    (order : list T) (i : nat) : double :=
  Qprod (estimates adapter (firstn i order)).

(** Child [i] at its cost, weighted by the estimates of the children
    before it. *)
Definition weighted_cost {T} (adapter : flow.Adapter T)
    (order : list T) (i : nat) : double :=
  estimate_before adapter order i * flow.at_index order (flow.cost adapter) i.

(** The cost of a strict AND over [order]: the first child at its strict
    cost, every later child at its weighted cost. *)
Definition And_strict_cost {T} (adapter : flow.Adapter T) (order : list T) : double :=
  match order with
  | [] => 0
  | first :: rest =>
      flow.strict_cost adapter first
      + Qsum (map (weighted_cost adapter order) (seq 1 (length rest)))
  end.

(** The cost of a non-strict AND over [l] per unit of incoming flow. *)
Fixpoint and_chain {T} (adapter : flow.Adapter T) (l : list T) : double :=
  match l with
  | [] => 0
  | c :: t => flow.cost adapter c + flow.estimate adapter c * and_chain adapter t
  end.

(** The cost of the children before index [i], each at its weighted cost. *)
Definition cost_before {T} (adapter : flow.Adapter T)
    (order : list T) (i : nat) : double :=
  Qsum (map (weighted_cost adapter order) (seq 0 i)).

(** What making child [i] the strict entry adds to the cost of the
    non-strict AND over [order]: the child moves to the front at its strict
    cost and no longer pays its weighted cost, and the children before it
    are each weighted by its estimate once more. *)
Definition strict_diff {T} (adapter : flow.Adapter T)
    (order : list T) (i : nat) : double :=
  (flow.at_index order (flow.strict_cost adapter) i
   + flow.at_index order (flow.estimate adapter) i * cost_before adapter order i)
  - (cost_before adapter order i + weighted_cost adapter order i).

(** The same value with child [i] at its raw cost instead of its weighted
    cost. *)
Definition raw_strict_diff {T} (adapter : flow.Adapter T)
    (order : list T) (i : nat) : double :=
  (flow.at_index order (flow.strict_cost adapter) i
   + flow.at_index order (flow.estimate adapter) i * cost_before adapter order i)
  - (cost_before adapter order i + flow.at_index order (flow.cost adapter) i).

(** What the loop of [select_strict_and_child] knows after the children
    [p]: where it stands, and that its best index is the first one of
    least [strict_diff]. *)
Record select_invariant {T} (adapter : flow.Adapter T)
    (p : list T) (st : flow.select_state) : Prop := {
  inv_idx : flow.sel_idx st = length p;
  inv_cost : flow.sel_cost st == cost_before adapter p (length p);
  inv_est : flow.sel_est st == Qprod (estimates adapter p);
  inv_best_idx : p <> [] -> (flow.sel_best_idx st < length p)%nat;
  inv_best_diff :
    p <> [] -> flow.sel_best_diff st == strict_diff adapter p (flow.sel_best_idx st);
  inv_least :
    forall i, (i < length p)%nat -> flow.sel_best_diff st <= strict_diff adapter p i;
  inv_first :
    forall i, (i < flow.sel_best_idx st)%nat ->
              flow.sel_best_diff st < strict_diff adapter p i
}.

(** What holds of an accumulator fed with estimates of the unit interval:
    its flow and its estimate are in [0,1], and one more [add] keeps the
    flow there without increasing it. *)
Definition flow_bounded {F} `{FLOW F} (f : F) : Prop :=
  unit_interval (F_flow f) /\
  unit_interval (F_estimate f) /\
  forall e, unit_interval e ->
    F_flow (F_add f e) <= F_flow f /\ unit_interval (F_flow (F_add f e)).

(** The form of every comparator of the file: [x a * c b > x b * c a]. *)
Definition cross {T} (x c : T -> double) (a b : T) : bool :=
  Qgtb (x a * c b) (x b * c a).

(** The cost, per unit of incoming flow, of running the children of [l] in
    order when child [a] costs [c a] and stops the fraction [x a] of the
    flow that reaches it. *)
Fixpoint chain {T} (x c : T -> double) (l : list T) : double :=
  match l with
  | [] => 0
  | a :: t => c a + (1 - x a) * chain x c t
  end.

(** An adapter on optional children: a missing child reads as 0, like an
    index outside the data of an [IndirectAdapter]. *)
Definition OptionAdapter {T} (adapter : flow.Adapter T) : flow.Adapter (option T) :=
  {| flow.estimate := fun o =>
       match o with Some c => flow.estimate adapter c | None => 0 end;
     flow.cost := fun o =>
       match o with Some c => flow.cost adapter c | None => 0 end;
     flow.strict_cost := fun o =>
       match o with Some c => flow.strict_cost adapter c | None => 0 end |}.

(** [adB] reads off [f a] what [adA] reads off [a]. *)
Definition adapter_agrees {A B} (f : A -> B)
    (adA : flow.Adapter A) (adB : flow.Adapter B) : Prop :=
  forall a,
    flow.estimate adA a = flow.estimate adB (f a) /\
    flow.cost adA a = flow.cost adB (f a) /\
    flow.strict_cost adA a = flow.strict_cost adB (f a).

(** The fraction of the flow that a child of an AND node stops. *)
Definition rejects {T} (adapter : flow.Adapter T) (child : T) : double :=
  1 - flow.estimate adapter child.

(** The cost an OR node charges every child: the strict cost when strict,
    the cost otherwise. *)
Definition charge_of {T} (adapter : flow.Adapter T) (strict : bool) : T -> double :=
  if strict then flow.strict_cost adapter else flow.cost adapter.

(** * The BM25 executor (searchlib/features/bm25_feature.cpp)

    The score involves [std::log], so here a [double] is a real number.
    The interfaces of the fef framework are not part of these sources: an
    [IQueryEnvironment] is the list of its terms, an [ITermData] the list of
    its [ITermFieldData], each a record of what its getters return, and a
    [MatchData] the function [resolveTermField].  Counts of type [uint32_t]
    are integers with the wrap-around written out; the occurrence count
    and the field length of a [TermFieldMatchData] are unsigned integers. *)
Module bm25.
Local Open Scope R_scope.

Definition uint32 (z : Z) : Prop := (0 <= z < 2 ^ 32)%Z.

(** Arithmetic on [uint32_t] is modulo 2^32. *)
Definition wrap32 (z : Z) : Z := (z mod 2 ^ 32)%Z.

Record ITermFieldData : Type := mkTermField {
  getFieldId : nat;
  getHandle : nat;
  get_matching_doc_count : Z;
  get_total_doc_count : Z
}.

Definition ITermData : Type := list ITermFieldData.

Definition IQueryEnvironment : Type := list ITermData.

Record TermFieldMatchData : Type := mkMatch {
  getDocId : nat;
  getNumOccs : nat;
  getFieldLength : nat
}.

Definition MatchData : Type := nat -> TermFieldMatchData.

(** [tfmd] is a pointer, null until match data is bound. *)
Record QueryTerm : Type := mkQueryTerm {
  handle : nat;
  tfmd : option TermFieldMatchData;
  inverse_doc_freq : R
}.

Record Bm25Executor : Type := mkExecutor {
  _terms : list QueryTerm;
  _avg_field_length : R;
  _k1_param : R;
  _b_param : R
}.

Definition calculate_inverse_document_frequency
    (matching_doc_count total_doc_count : Z) : R :=
  ln (1 + (IZR (wrap32 (total_doc_count - matching_doc_count)) + 0.5)
          / (IZR matching_doc_count + 0.5)).

(** The constructor: one query term for every field of every term of the
    environment that searches [field]. *)
Definition make (field : nat) (env : IQueryEnvironment) (avg_field_length : R)
    : Bm25Executor :=
  {| _terms :=
       flat_map
         (fun term : ITermData =>
            flat_map
              (fun term_field : ITermFieldData =>
                 if (field =? getFieldId term_field)%nat
                 then [ {| handle := getHandle term_field;
                           tfmd := None;
                           inverse_doc_freq :=
                             calculate_inverse_document_frequency
                               (get_matching_doc_count term_field)
                               (get_total_doc_count term_field) |} ]
                 else [])
              term)
         env;
     _avg_field_length := avg_field_length;
     _k1_param := 1.2;
     _b_param := 0.75 |}.

Definition handle_bind_match_data (ex : Bm25Executor) (match_data : MatchData)
    : Bm25Executor :=
  {| _terms :=
       map (fun term =>
              {| handle := handle term;
                 tfmd := Some (match_data (handle term));
                 inverse_doc_freq := inverse_doc_freq term |})
           (_terms ex);
     _avg_field_length := _avg_field_length ex;
     _k1_param := _k1_param ex;
     _b_param := _b_param ex |}.

(** What a term at the document adds to the score. *)
Definition term_score (ex : Bm25Executor) (inverse_doc_freq : R)
    (data : TermFieldMatchData) : R :=
  let num_occs := INR (getNumOccs data) in
  let norm_field_length := INR (getFieldLength data) / _avg_field_length ex in
  let numerator := inverse_doc_freq * num_occs * (_k1_param ex + 1) in
  let denominator :=
    num_occs
    + _k1_param ex * (1 - _b_param ex + _b_param ex * norm_field_length) in
  numerator / denominator.

(** The loop of [execute]; a term whose [tfmd] is null cannot be read. *)
Fixpoint execute_terms (ex : Bm25Executor) (terms : list QueryTerm)
    (doc_id : nat) (score : R) : option R :=
  match terms with
  | [] => Some score
  | term :: rest =>
      match tfmd term with
      | None => None
      | Some data =>
          if (getDocId data =? doc_id)%nat
          then execute_terms ex rest doc_id
                 (score + term_score ex (inverse_doc_freq term) data)
          else execute_terms ex rest doc_id score
      end
  end.

(** [execute] returns what it writes with [outputs().set_number(0, score)]. *)
Definition execute (ex : Bm25Executor) (doc_id : nat) : option R :=
  execute_terms ex (_terms ex) doc_id 0.

(** The inverse document frequencies of the terms that are at [doc_id]. *)
Definition frequencies_at (terms : list QueryTerm) (doc_id : nat) : list R :=
  flat_map
    (fun term =>
       match tfmd term with
       | Some data =>
           if (getDocId data =? doc_id)%nat then [inverse_doc_freq term] else []
       | None => []
       end)
    terms.

Fixpoint Rsum (l : list R) : R :=
  match l with
  | [] => 0
  | x :: t => x + Rsum t
  end.

(** The environments whose document counts are [uint32_t] values. *)
Definition counts_uint32 (env : IQueryEnvironment) : Prop :=
  Forall (Forall (fun term_field =>
                    uint32 (get_matching_doc_count term_field) /\
                    uint32 (get_total_doc_count term_field))) env.

(** A term with bound match data and an inverse document frequency that
    is not negative. *)
Definition bound_nonneg (term : QueryTerm) : Prop :=
  tfmd term <> None /\ 0 <= inverse_doc_freq term.

End bm25.

(** [order] is [sorted] with the child that [select_strict_and_child]
    picks moved to the front and the children before it one place up. *)
Definition strict_entry_first {T} (adapter : flow.Adapter T)
    (sorted order : list T) : Prop :=
  let idx := flow.select_strict_and_child adapter sorted in
  exists the_one,
    nth_error sorted idx = Some the_one /\
    order = the_one :: firstn idx sorted ++ skipn (S idx) sorted.

(** What [AndFlow::sort] makes of [children]: a permutation without
    adjacent inversion of MinAndCost and, for a strict node with more than
    one child, the selected child of that permutation in front. *)
Definition And_order {T} (adapter : flow.Adapter T) (strict : bool)
    (children order : list T) : Prop :=
  exists sorted,
    Permutation children sorted /\
    Sorted (no_inversion (flow.MinAndCost adapter)) sorted /\
    if strict && (1 <? length children)%nat
    then strict_entry_first adapter sorted order
    else order = sorted.

(** What [OrFlow::sort] makes of [children]: a permutation without
    adjacent inversion of MinOrStrictCost when strict, of MinOrCost
    otherwise. *)
Definition Or_order {T} (adapter : flow.Adapter T) (strict : bool)
    (children order : list T) : Prop :=
  Permutation children order /\
  Sorted (no_inversion (if strict then flow.MinOrStrictCost adapter
                        else flow.MinOrCost adapter)) order.

(** What [AndNotFlow::sort] makes of [children]: the first child where it
    was, the others permuted without adjacent inversion of MinOrCost. *)
Definition AndNot_order {T} (adapter : flow.Adapter T)
    (children order : list T) : Prop :=
  hd_error order = hd_error children /\
  Permutation (tl children) (tl order) /\
  Sorted (no_inversion (flow.MinOrCost adapter)) (tl order).

(** * flow.h over IEEE binary64

    The comparators, [flow::sort], the three accumulators,
    [flow::estimate_of] and [flow::ordered_cost_of] once more, with
    [double] as the primitive binary64 floats: [*], [-], [+] round to
    nearest even as the C++ operations do, and [<?], [=?] are the IEEE
    comparisons (false on NaN; the two zeros are equal).  Each definition
    is the one of the same name above with the operations exchanged. *)
Module binary64.
Local Open Scope float_scope.

(** [x > y] on doubles. *)
Definition gtb (x y : float) : bool := (y <? x).

(** An adapter, and the shape the default adapter expects of a child. *)

Record Adapter (T : Type) : Type := mkAdapter {
  estimate : T -> float;
  cost : T -> float;
  strict_cost : T -> float
}.
Arguments mkAdapter {T}.
Arguments estimate {T}.
Arguments cost {T}.
Arguments strict_cost {T}.

Record Blueprint : Type := mkBlueprint {
  bp_estimate : float;
  bp_cost : float;
  bp_strict_cost : float
}.

Definition DefaultAdapter : Adapter Blueprint :=
  {| estimate := bp_estimate; cost := bp_cost; strict_cost := bp_strict_cost |}.

Definition MinAndCost {T} (adapter : Adapter T) (a b : T) : bool :=
  gtb ((1 - estimate adapter a) * cost adapter b)
      ((1 - estimate adapter b) * cost adapter a).

Definition MinOrCost {T} (adapter : Adapter T) (a b : T) : bool :=
  gtb (estimate adapter a * cost adapter b)
      (estimate adapter b * cost adapter a).

Definition MinOrStrictCost {T} (adapter : Adapter T) (a b : T) : bool :=
  gtb (estimate adapter a * strict_cost adapter b)
      (estimate adapter b * strict_cost adapter a).

Definition sort {T} (ORDER : Adapter T -> T -> T -> bool)
    (adapter : Adapter T) (children : list T) : list T :=
  flow.std_sort (ORDER adapter) children.

(** What [estimate_of] and [ordered_cost_of] ask of their [F flow]
    argument, and the three accumulators: [AndFlow], [OrFlow],
    [AndNotFlow], each with its constructor [FLOW(in, strict)]. *)
Class FLOW (F : Type) : Type := {
  F_add : F -> float -> F;
  F_flow : F -> float;
  F_strict : F -> bool;
  F_estimate : F -> float
}.

Record AndFlow : Type :=
  mkAnd { and_flow : float; and_strict : bool; and_first : bool }.

Definition AndFlow_make (inp : float) (strict : bool) : AndFlow :=
  {| and_flow := inp; and_strict := strict; and_first := true |}.

#[global] Instance AndFlow_FLOW : FLOW AndFlow :=
  {| F_add := fun f est =>
       {| and_flow := and_flow f * est; and_strict := and_strict f;
          and_first := false |};
     F_flow := and_flow;
     F_strict := fun f => and_strict f && and_first f;
     F_estimate := fun f => if and_first f then 0 else and_flow f |}.

Record OrFlow : Type :=
  mkOr { or_flow : float; or_strict : bool; or_first : bool }.

Definition OrFlow_make (inp : float) (strict : bool) : OrFlow :=
  {| or_flow := inp; or_strict := strict; or_first := true |}.

#[global] Instance OrFlow_FLOW : FLOW OrFlow :=
  {| F_add := fun f est =>
       {| or_flow := or_flow f * (1 - est); or_strict := or_strict f;
          or_first := false |};
     F_flow := or_flow;
     F_strict := or_strict;
     F_estimate := fun f => if or_first f then 0 else 1 - or_flow f |}.

Record AndNotFlow : Type :=
  mkAndNot { andnot_flow : float; andnot_strict : bool; andnot_first : bool }.

Definition AndNotFlow_make (inp : float) (strict : bool) : AndNotFlow :=
  {| andnot_flow := inp; andnot_strict := strict; andnot_first := true |}.

#[global] Instance AndNotFlow_FLOW : FLOW AndNotFlow :=
  {| F_add := fun f est =>
       {| andnot_flow :=
            andnot_flow f * (if andnot_first f then est else 1 - est);
          andnot_strict := andnot_strict f; andnot_first := false |};
     F_flow := andnot_flow;
     F_strict := fun f => andnot_strict f && andnot_first f;
     F_estimate := fun f => if andnot_first f then 0 else andnot_flow f |}.

Definition estimate_of {T F} `{FLOW F}
    (adapter : Adapter T) (children : list T) (flow : F) : float :=
  F_estimate
    (fold_left (fun fl child => F_add fl (estimate adapter child)) children flow).

Definition cost_step {T F} `{FLOW F} (adapter : Adapter T)
    (st : float * F) (child : T) : float * F :=
  let child_cost :=
    if F_strict (snd st) then strict_cost adapter child else cost adapter child in
  (fst st + F_flow (snd st) * child_cost,
   F_add (snd st) (estimate adapter child)).

Definition ordered_cost_of {T F} `{FLOW F}
    (adapter : Adapter T) (children : list T) (flow : F) : float :=
  fst (fold_left (cost_step adapter) children (0, flow)).

(** The degenerate children, for which both products of a comparison
    vanish whatever the other child is: estimate 1 and cost 0 for
    MinAndCost, estimate 0 and cost 0 for MinOrCost, estimate 0 and strict
    cost 0 for MinOrStrictCost. *)
Definition free_always {T} (adapter : Adapter T) (child : T) : Prop :=
  (estimate adapter child =? 1) = true /\ (cost adapter child =? 0) = true.

Definition free_never {T} (adapter : Adapter T) (child : T) : Prop :=
  (estimate adapter child =? 0) = true /\ (cost adapter child =? 0) = true.

Definition strict_free_never {T} (adapter : Adapter T) (child : T) : Prop :=
  (estimate adapter child =? 0) = true /\ (strict_cost adapter child =? 0) = true.

(** The well-formed domain of a child: estimate in [0,1], costs not
    negative. *)
Definition well_formed {T} (adapter : Adapter T) (child : T) : Prop :=
  (0 <=? estimate adapter child) = true /\
  (estimate adapter child <=? 1) = true /\
  (0 <=? cost adapter child) = true /\
  (0 <=? strict_cost adapter child) = true.

End binary64.

(** The laws of a comparator that rounding leaves intact, at two children:
    [a] is not less than itself, [a] and [b] are not each less than the
    other, and [b], when degenerate, is tied with [a]. *)
Definition comparator_laws {T} (comp : T -> T -> bool) (degenerate : T -> Prop)
    (a b : T) : Prop :=
  comp a a = false /\
  (comp a b = true -> comp b a = false) /\
  (degenerate b -> incomparable comp a b).

(** A child with the given estimate, whose cost and strict cost are both
    [c]. *)
Definition child64 (e c : float) : binary64.Blueprint :=
  binary64.mkBlueprint e c c.

(** A zero of either sign, or not a number. *)
Definition zero_or_nan (f : spec_float) : Prop :=
  match f with
  | S754_zero _ | S754_nan => True
  | _ => False
  end.

(** * Comparisons on doubles *)

Lemma Qgtb_true (x y : double) : Qgtb x y = true <-> y < x.
Proof.
  unfold Qgtb. rewrite negb_true_iff, <- not_true_iff_false, Qle_bool_iff.
  split; [apply Qnot_le_lt | apply Qlt_not_le].
Qed.

Lemma Qgtb_false (x y : double) : Qgtb x y = false <-> x <= y.
Proof.
  unfold Qgtb. rewrite negb_false_iff. apply Qle_bool_iff.
Qed.

Lemma Qltb_true (x y : double) : Qltb x y = true <-> x < y.
Proof. apply (Qgtb_true y x). Qed.

Lemma Qltb_false (x y : double) : Qltb x y = false <-> y <= x.
Proof. apply (Qgtb_false y x). Qed.

(** * Products and sums *)

Lemma Qprod_app (l1 l2 : list double) :
  Qprod (l1 ++ l2) == Qprod l1 * Qprod l2.
Proof.
  induction l1 as [|x l1 IH]; simpl.
  - ring.
  - rewrite IH. ring.
Qed.

Lemma Qprod_unit (l : list double) :
  Forall unit_interval l -> unit_interval (Qprod l).
Proof.
  unfold unit_interval.
  induction 1 as [|x l [Hx0 Hx1] _ [IH0 IH1]]; simpl.
  - split; discriminate.
  - split; [apply Qmult_le_0_compat; assumption | nra].
Qed.

Lemma complements_unit (es : list double) :
  Forall unit_interval es -> Forall unit_interval (complements es).
Proof.
  unfold complements, unit_interval.
  induction 1 as [|e es [H0 H1] _ IH]; simpl; constructor; auto.
  split; lra.
Qed.

Lemma Qsum_app (l1 l2 : list double) :
  Qsum (l1 ++ l2) == Qsum l1 + Qsum l2.
Proof.
  induction l1 as [|x l1 IH]; simpl.
  - ring.
  - rewrite IH. ring.
Qed.

(** * The accumulators after a sequence of [add] *)

Lemma fold_add_estimates {T F} `{FLOW F}
    (adapter : flow.Adapter T) (children : list T) (fl : F) :
  fold_left (fun fl child => F_add fl (flow.estimate adapter child)) children fl
  = fold_left F_add (estimates adapter children) fl.
Proof.
  revert fl. induction children as [|c children IH]; intros fl; simpl.
  - reflexivity.
  - apply IH.
Qed.

Lemma And_fold_flow (es : list double) (f : AndFlow.t) :
  AndFlow._flow (fold_left AndFlow.add es f) == AndFlow._flow f * Qprod es.
Proof.
  revert f. induction es as [|e es IH]; intros f; simpl.
  - ring.
  - rewrite IH. simpl. ring.
Qed.

Lemma And_fold_first (es : list double) (f : AndFlow.t) :
  AndFlow._first (fold_left AndFlow.add es f)
  = match es with [] => AndFlow._first f | _ :: _ => false end.
Proof.
  destruct es as [|e es]; [reflexivity|].
  simpl. generalize (AndFlow.add f e) (eq_refl : AndFlow._first (AndFlow.add f e) = false).
  induction es as [|e' es IH]; intros g Hg; simpl; auto.
Qed.

Lemma Or_fold_flow (es : list double) (f : OrFlow.t) :
  OrFlow._flow (fold_left OrFlow.add es f)
  == OrFlow._flow f * Qprod (complements es).
Proof.
  revert f. induction es as [|e es IH]; intros f; simpl.
  - ring.
  - rewrite IH. simpl. ring.
Qed.

Lemma Or_fold_first (es : list double) (f : OrFlow.t) :
  OrFlow._first (fold_left OrFlow.add es f)
  = match es with [] => OrFlow._first f | _ :: _ => false end.
Proof.
  destruct es as [|e es]; [reflexivity|].
  simpl. generalize (OrFlow.add f e) (eq_refl : OrFlow._first (OrFlow.add f e) = false).
  induction es as [|e' es IH]; intros g Hg; simpl; auto.
Qed.

(** Once the first child is in, AND-NOT folds like OR. *)
Lemma AndNot_fold_rest (es : list double) (f : AndNotFlow.t) :
  AndNotFlow._first f = false ->
  AndNotFlow._first (fold_left AndNotFlow.add es f) = false /\
  AndNotFlow._flow (fold_left AndNotFlow.add es f)
  == AndNotFlow._flow f * Qprod (complements es).
Proof.
  revert f. induction es as [|e es IH]; intros f Hf; simpl.
  - split; [assumption | ring].
  - destruct (IH (AndNotFlow.add f e) eq_refl) as [H1 H2].
    split; [assumption|].
    rewrite H2. simpl. rewrite Hf. ring.
Qed.

Lemma AndNot_fold_flow (e : double) (es : list double) (strict : bool) :
  AndNotFlow._flow (fold_left AndNotFlow.add (e :: es) (AndNotFlow.make 1 strict))
  == e * Qprod (complements es).
Proof.
  simpl.
  destruct (AndNot_fold_rest es (AndNotFlow.add (AndNotFlow.make 1 strict) e) eq_refl)
    as [_ H].
  rewrite H. simpl. ring.
Qed.

Lemma AndNot_fold_first (es : list double) (f : AndNotFlow.t) :
  AndNotFlow._first (fold_left AndNotFlow.add es f)
  = match es with [] => AndNotFlow._first f | _ :: _ => false end.
Proof.
  destruct es as [|e es]; [reflexivity|].
  simpl. apply (AndNot_fold_rest es (AndNotFlow.add f e) eq_refl).
Qed.

(** Closed forms of [estimate_of] for the three node kinds. *)
Lemma And_estimate_of_closed {T} (adapter : flow.Adapter T) (children : list T) :
  FlowMixin.estimate_of AndFlow.t adapter children
  == match children with
     | [] => 0
     | _ :: _ => Qprod (estimates adapter children)
     end.
Proof.
  unfold FlowMixin.estimate_of, flow.estimate_of.
  rewrite fold_add_estimates. simpl. unfold AndFlow.estimate.
  rewrite And_fold_first.
  destruct children as [|c children]; [reflexivity|].
  cbn [estimates map]. rewrite And_fold_flow. simpl. ring.
Qed.

Lemma Or_estimate_of_closed {T} (adapter : flow.Adapter T) (children : list T) :
  FlowMixin.estimate_of OrFlow.t adapter children
  == match children with
     | [] => 0
     | _ :: _ => 1 - Qprod (complements (estimates adapter children))
     end.
Proof.
  unfold FlowMixin.estimate_of, flow.estimate_of.
  rewrite fold_add_estimates. simpl. unfold OrFlow.estimate.
  rewrite Or_fold_first.
  destruct children as [|c children]; [reflexivity|].
  cbn [estimates map]. rewrite Or_fold_flow. simpl. ring.
Qed.

Lemma AndNot_estimate_of_closed {T} (adapter : flow.Adapter T) (children : list T) :
  FlowMixin.estimate_of AndNotFlow.t adapter children
  == match children with
     | [] => 0
     | first :: rest =>
         flow.estimate adapter first * Qprod (complements (estimates adapter rest))
     end.
Proof.
  unfold FlowMixin.estimate_of, flow.estimate_of.
  rewrite fold_add_estimates. simpl. unfold AndNotFlow.estimate.
  rewrite AndNot_fold_first.
  destruct children as [|c children]; [reflexivity|].
  cbn [estimates map]. apply AndNot_fold_flow.
Qed.

(** * Bounds on the accumulators *)

Lemma And_flow_bounded (f : AndFlow.t) :
  unit_interval (AndFlow._flow f) -> flow_bounded f.
Proof.
  unfold flow_bounded, unit_interval. simpl.
  unfold AndFlow.estimate, AndFlow.flow. simpl. intros [H0 H1].
  repeat split; try assumption.
  - destruct (AndFlow._first f); [discriminate | assumption].
  - destruct (AndFlow._first f); [discriminate | assumption].
  - destruct H as [He0 He1]. nra.
  - destruct H as [He0 He1]. apply Qmult_le_0_compat; assumption.
  - destruct H as [He0 He1]. nra.
Qed.

Lemma Or_flow_bounded (f : OrFlow.t) :
  unit_interval (OrFlow._flow f) -> flow_bounded f.
Proof.
  unfold flow_bounded, unit_interval. simpl.
  unfold OrFlow.estimate, OrFlow.flow. simpl. intros [H0 H1].
  repeat split; try assumption.
  - destruct (OrFlow._first f); [discriminate | lra].
  - destruct (OrFlow._first f); [discriminate | lra].
  - destruct H as [He0 He1]. nra.
  - destruct H as [He0 He1]. apply Qmult_le_0_compat; lra.
  - destruct H as [He0 He1]. nra.
Qed.

Lemma AndNot_flow_bounded (f : AndNotFlow.t) :
  unit_interval (AndNotFlow._flow f) -> flow_bounded f.
Proof.
  unfold flow_bounded, unit_interval. simpl.
  unfold AndNotFlow.estimate, AndNotFlow.flow. simpl. intros [H0 H1].
  repeat split; try assumption.
  - destruct (AndNotFlow._first f); [discriminate | assumption].
  - destruct (AndNotFlow._first f); [discriminate | assumption].
  - destruct H as [He0 He1]. destruct (AndNotFlow._first f); nra.
  - destruct H as [He0 He1].
    destruct (AndNotFlow._first f); apply Qmult_le_0_compat; lra.
  - destruct H as [He0 He1]. destruct (AndNotFlow._first f); nra.
Qed.

Lemma And_reach_unit (es : list double) (strict : bool) :
  Forall unit_interval es ->
  unit_interval (AndFlow._flow (fold_left AndFlow.add es (AndFlow.make 1 strict))).
Proof.
  intros Hes. pose proof (Qprod_unit es Hes) as [H0 H1].
  pose proof (And_fold_flow es (AndFlow.make 1 strict)) as E. simpl in E.
  unfold unit_interval. split; lra.
Qed.

Lemma Or_reach_unit (es : list double) (strict : bool) :
  Forall unit_interval es ->
  unit_interval (OrFlow._flow (fold_left OrFlow.add es (OrFlow.make 1 strict))).
Proof.
  intros Hes. pose proof (Qprod_unit _ (complements_unit es Hes)) as [H0 H1].
  pose proof (Or_fold_flow es (OrFlow.make 1 strict)) as E. simpl in E.
  unfold unit_interval. split; lra.
Qed.

Lemma AndNot_reach_unit (es : list double) (strict : bool) :
  Forall unit_interval es ->
  unit_interval
    (AndNotFlow._flow (fold_left AndNotFlow.add es (AndNotFlow.make 1 strict))).
Proof.
  intros Hes. destruct Hes as [|e es [He0 He1] Hes].
  - simpl. split; discriminate.
  - pose proof (Qprod_unit _ (complements_unit es Hes)) as [H0 H1].
    pose proof (AndNot_fold_flow e es strict) as E.
    unfold unit_interval. split; nra.
Qed.

(** C10: for AndFlow, OrFlow and AndNotFlow built with flow 1.0 and fed
    estimates of [0,1] only, the flow stays in [0,1] after every add, an add
    never increases it, and the estimate lies in [0,1]. *)
Theorem flow_stays_in_unit_interval (es : list double) (strict : bool) :
  Forall unit_interval es ->
  flow_bounded (fold_left F_add es (F_make 1 strict : AndFlow.t)) /\
  flow_bounded (fold_left F_add es (F_make 1 strict : OrFlow.t)) /\
  flow_bounded (fold_left F_add es (F_make 1 strict : AndNotFlow.t)).
Proof.
  intros Hes. split; [|split].
  - apply And_flow_bounded, And_reach_unit, Hes.
  - apply Or_flow_bounded, Or_reach_unit, Hes.
  - apply AndNot_flow_bounded, AndNot_reach_unit, Hes.
Qed.

Lemma flow_stays_in_unit_interval_witness :
  Forall unit_interval [1 # 2; 1 # 3; 1] /\
  flow_bounded (fold_left F_add [1 # 2; 1 # 3; 1] (F_make 1 true : AndFlow.t)) /\
  flow_bounded (fold_left F_add [1 # 2; 1 # 3; 1] (F_make 1 true : OrFlow.t)) /\
  flow_bounded (fold_left F_add [1 # 2; 1 # 3; 1] (F_make 1 true : AndNotFlow.t)).
Proof.
  assert (H : Forall unit_interval [1 # 2; 1 # 3; 1]).
  { repeat constructor; discriminate. }
  split; [exact H | exact (flow_stays_in_unit_interval _ true H)].
Defined.

(** * The estimate of a node *)

(** C6: the estimate of an AND node is the product of its children's
    estimates, and 0 for a node without children. *)
Theorem And_estimate_of_is_product {T} (adapter : flow.Adapter T) (children : list T) :
  FlowMixin.estimate_of AndFlow.t adapter children
  == match children with
     | [] => 0
     | _ :: _ => Qprod (estimates adapter children)
     end.
Proof. apply And_estimate_of_closed. Qed.

(** C7: the estimate of an OR node is one minus the product of the
    complements of its children's estimates, and 0 for a node without
    children. *)
Theorem Or_estimate_of_is_coproduct {T} (adapter : flow.Adapter T) (children : list T) :
  FlowMixin.estimate_of OrFlow.t adapter children
  == match children with
     | [] => 0
     | _ :: _ => 1 - Qprod (complements (estimates adapter children))
     end.
Proof. apply Or_estimate_of_closed. Qed.

(** C8: the estimate of an AND-NOT node is the estimate of its first child
    times the product of the complements of the estimates of the others,
    and 0 for a node without children; for estimates 0.9 and 0.5 it is
    0.45. *)
Theorem AndNot_estimate_of_first_times_complements :
  (forall T (adapter : flow.Adapter T) (children : list T),
     FlowMixin.estimate_of AndNotFlow.t adapter children
     == match children with
        | [] => 0
        | first :: rest =>
            flow.estimate adapter first
            * Qprod (complements (estimates adapter rest))
        end) /\
  FlowMixin.estimate_of AndNotFlow.t flow.DefaultAdapter and_not_children
  == 45 # 100.
Proof.
  split.
  - intros T adapter children. apply AndNot_estimate_of_closed.
  - reflexivity.
Qed.

(** * The comparators as orders *)

Section CrossOrder.
Context {T : Type} (x c : T -> double).

Lemma cross_asym (a b : T) : cross x c a b = true -> cross x c b a = false.
Proof.
  unfold cross. rewrite Qgtb_true, Qgtb_false. apply Qlt_le_weak.
Qed.

End CrossOrder.

Lemma sample_children_well_formed :
  Forall (well_formed flow.DefaultAdapter)
    [never_cost1; never_cost2; half_cost1; half_cost2; always_free; never_free].
Proof.
  repeat constructor; discriminate.
Qed.

Lemma MinAndCost_asymmetric {T} (adapter : flow.Adapter T) :
  asymmetric (flow.MinAndCost adapter).
Proof.
  intros a b.
  apply (cross_asym (fun k => 1 - flow.estimate adapter k) (flow.cost adapter)).
Qed.

Lemma MinOrCost_asymmetric {T} (adapter : flow.Adapter T) :
  asymmetric (flow.MinOrCost adapter).
Proof.
  intros a b. apply (cross_asym (flow.estimate adapter) (flow.cost adapter)).
Qed.

Lemma MinOrStrictCost_asymmetric {T} (adapter : flow.Adapter T) :
  asymmetric (flow.MinOrStrictCost adapter).
Proof.
  intros a b. apply (cross_asym (flow.estimate adapter) (flow.strict_cost adapter)).
Qed.

(** * Sorting *)

Section StdSort.
Context {T : Type} (comp : T -> T -> bool).

Lemma insert_sorted_Permutation (x : T) (l : list T) :
  Permutation (x :: l) (flow.insert_sorted comp x l).
Proof.
  induction l as [|h t IH]; simpl.
  - apply Permutation_refl.
  - destruct (comp x h).
    + apply Permutation_refl.
    + apply perm_trans with (h :: x :: t).
      * apply perm_swap.
      * apply perm_skip, IH.
Qed.

Lemma fold_insert_Permutation (l acc : list T) :
  Permutation (l ++ acc)
    (fold_left (fun acc x => flow.insert_sorted comp x acc) l acc).
Proof.
  revert acc. induction l as [|x l IH]; intros acc; simpl.
  - apply Permutation_refl.
  - apply perm_trans with (l ++ flow.insert_sorted comp x acc).
    + apply perm_trans with (l ++ x :: acc).
      * apply Permutation_middle.
      * apply Permutation_app_head, insert_sorted_Permutation.
    + apply IH.
Qed.

Lemma std_sort_Permutation (l : list T) :
  Permutation l (flow.std_sort comp l).
Proof.
  unfold flow.std_sort.
  pose proof (fold_insert_Permutation l []) as H.
  rewrite app_nil_r in H. exact H.
Qed.

Hypothesis comp_asym : asymmetric comp.

Lemma insert_sorted_HdRel (h x : T) (l : list T) :
  comp x h = false ->
  HdRel (no_inversion comp) h l ->
  HdRel (no_inversion comp) h (flow.insert_sorted comp x l).
Proof.
  intros Hxh Hl. destruct l as [|h' t]; simpl.
  - constructor. exact Hxh.
  - destruct (comp x h').
    + constructor. exact Hxh.
    + constructor. inversion Hl; assumption.
Qed.

Lemma insert_sorted_Sorted (x : T) (l : list T) :
  Sorted (no_inversion comp) l ->
  Sorted (no_inversion comp) (flow.insert_sorted comp x l).
Proof.
  induction 1 as [|h t Ht IH Hh]; simpl.
  - repeat constructor.
  - destruct (comp x h) eqn:E.
    + constructor.
      * constructor; assumption.
      * constructor. apply comp_asym, E.
    + constructor.
      * exact IH.
      * apply insert_sorted_HdRel; assumption.
Qed.

Lemma fold_insert_Sorted (l acc : list T) :
  Sorted (no_inversion comp) acc ->
  Sorted (no_inversion comp)
    (fold_left (fun acc x => flow.insert_sorted comp x acc) l acc).
Proof.
  revert acc. induction l as [|x l IH]; intros acc Hacc; simpl.
  - exact Hacc.
  - apply IH, insert_sorted_Sorted, Hacc.
Qed.

Lemma std_sort_Sorted (l : list T) :
  Sorted (no_inversion comp) (flow.std_sort comp l).
Proof.
  apply fold_insert_Sorted. constructor.
Qed.
End StdSort.

Lemma Sorted_adjacent {T} (R : T -> T -> Prop) (l1 l2 : list T) (a b : T) :
  Sorted R (l1 ++ a :: b :: l2) -> R a b.
Proof.
  induction l1 as [|x l1 IH]; simpl; intros H.
  - inversion H as [|? ? _ Hd]; subst. inversion Hd; assumption.
  - apply IH. inversion H; assumption.
Qed.

(** C9: the sort of an AND-NOT node leaves the first child where it is,
    whatever the strictness: the output starts with the first child of the
    input, and what follows is the rest of the input sorted by MinOrCost (a
    permutation of it without inversion). *)
Theorem AndNot_sort_keeps_first {T} (adapter : flow.Adapter T)
    (children : list T) (strict : bool) :
  hd_error (AndNotFlow.sort adapter children strict) = hd_error children /\
  tl (AndNotFlow.sort adapter children strict)
  = flow.sort flow.MinOrCost adapter (tl children) /\
  Permutation (tl children) (tl (AndNotFlow.sort adapter children strict)) /\
  Sorted (no_inversion (flow.MinOrCost adapter))
    (tl (AndNotFlow.sort adapter children strict)).
Proof.
  assert (E : tl (AndNotFlow.sort adapter children strict)
              = flow.sort flow.MinOrCost adapter (tl children)).
  { unfold AndNotFlow.sort, flow.sort_partial, flow.sort.
    destruct children as [|first [|second rest]]; reflexivity. }
  split; [|split; [exact E|rewrite E; split]].
  - unfold AndNotFlow.sort, flow.sort_partial.
    destruct children as [|first [|second rest]]; reflexivity.
  - apply std_sort_Permutation.
  - apply std_sort_Sorted, MinOrCost_asymmetric.
Qed.

(** * The cost of a node *)

Lemma Qsum_map_ext {A} (f g : A -> double) (l : list A) :
  (forall i, In i l -> f i == g i) -> Qsum (map f l) == Qsum (map g l).
Proof.
  induction l as [|i l IH]; simpl; intros H.
  - reflexivity.
  - rewrite (H i (or_introl eq_refl)), IH.
    + reflexivity.
    + intros j Hj. apply H. right. exact Hj.
Qed.

Lemma Qsum_map_scale {A} (k : double) (f : A -> double) (l : list A) :
  Qsum (map (fun i => k * f i) l) == k * Qsum (map f l).
Proof.
  induction l as [|i l IH]; simpl.
  - ring.
  - rewrite IH. ring.
Qed.

Section OrderedCost.
Context {T F : Type} `{FLOW F} (adapter : flow.Adapter T).

Lemma cost_fold_acc (l : list T) (acc : double) (fl : F) :
  fst (fold_left (flow.cost_step adapter) l (acc, fl))
  == acc + flow.ordered_cost_of adapter l fl.
Proof.
  unfold flow.ordered_cost_of.
  revert acc fl. induction l as [|c t IH]; intros acc fl; simpl.
  - ring.
  - unfold flow.cost_step at 2 4. cbn [fst snd].
    rewrite IH. rewrite (IH (0 + _)). ring.
Qed.

Lemma ordered_cost_of_cons (c : T) (t : list T) (fl : F) :
  flow.ordered_cost_of adapter (c :: t) fl
  == F_flow fl * charged adapter fl c
     + flow.ordered_cost_of adapter t (F_add fl (flow.estimate adapter c)).
Proof.
  unfold flow.ordered_cost_of at 1. simpl.
  unfold flow.cost_step at 2. cbn [fst snd].
  rewrite cost_fold_acc. unfold charged. ring.
Qed.

Lemma ordered_cost_of_weighted (l : list T) (fl : F) :
  flow.ordered_cost_of adapter l fl == flow_weighted_sum adapter l fl.
Proof.
  revert fl. induction l as [|c t IH]; intros fl.
  - reflexivity.
  - rewrite ordered_cost_of_cons, IH.
    unfold flow_weighted_sum. cbn [length seq map Qsum].
    rewrite <- seq_shift, map_map.
    apply Qplus_comp; [reflexivity|].
    apply Qsum_map_ext. intros i _. reflexivity.
Qed.
End OrderedCost.

Section AndCost.
Context {T : Type} (adapter : flow.Adapter T).

(** Past its first child, or when not strict, an AND accumulator charges
    costs only, each weighted by the flow. *)
Lemma And_cost_linear (l : list T) (g : AndFlow.t) :
  AndFlow.strict g = false ->
  flow.ordered_cost_of adapter l g == AndFlow._flow g * and_chain adapter l.
Proof.
  revert g. induction l as [|c t IH]; intros g Hg.
  - unfold flow.ordered_cost_of. simpl. ring.
  - rewrite ordered_cost_of_cons. unfold charged. simpl F_strict. rewrite Hg.
    rewrite IH.
    + simpl. unfold AndFlow.flow. ring.
    + unfold AndFlow.strict. simpl. apply andb_false_r.
Qed.

Lemma weighted_cost_cons (c : T) (t : list T) (j : nat) :
  weighted_cost adapter (c :: t) (S j)
  == flow.estimate adapter c * weighted_cost adapter t j.
Proof.
  unfold weighted_cost, estimate_before, flow.at_index. simpl. ring.
Qed.

Lemma weighted_cost_tail (c : T) (t : list T) :
  Qsum (map (weighted_cost adapter (c :: t)) (seq 1 (length t)))
  == flow.estimate adapter c
     * Qsum (map (weighted_cost adapter t) (seq 0 (length t))).
Proof.
  rewrite <- seq_shift, map_map, <- Qsum_map_scale.
  apply Qsum_map_ext. intros j _. apply weighted_cost_cons.
Qed.

Lemma and_chain_indexed (l : list T) :
  and_chain adapter l
  == Qsum (map (weighted_cost adapter l) (seq 0 (length l))).
Proof.
  induction l as [|c t IH].
  - reflexivity.
  - cbn [and_chain length seq map Qsum].
    rewrite weighted_cost_tail, <- IH.
    unfold weighted_cost, estimate_before, flow.at_index. simpl. ring.
Qed.

Lemma And_strict_cost_closed (order : list T) :
  flow.ordered_cost_of adapter order (AndFlow.make 1 true)
  == And_strict_cost adapter order.
Proof.
  destruct order as [|first rest].
  - reflexivity.
  - rewrite ordered_cost_of_cons, And_cost_linear by reflexivity.
    unfold And_strict_cost.
    rewrite weighted_cost_tail, <- and_chain_indexed.
    unfold charged. simpl. ring.
Qed.

End AndCost.

(** * The strict child of an AND node *)

Section Prefix.
Context {T : Type} (adapter : flow.Adapter T).

Lemma at_index_prefix (p q : list T) (f : T -> double) (i : nat) :
  (i < length p)%nat -> flow.at_index (p ++ q) f i = flow.at_index p f i.
Proof.
  intros Hi. unfold flow.at_index. rewrite nth_error_app1 by exact Hi.
  reflexivity.
Qed.

Lemma at_index_last (p : list T) (c : T) (f : T -> double) :
  flow.at_index (p ++ [c]) f (length p) = f c.
Proof.
  unfold flow.at_index. rewrite nth_error_app2 by apply Nat.le_refl.
  rewrite Nat.sub_diag. reflexivity.
Qed.

Lemma estimate_before_prefix (p q : list T) (i : nat) :
  (i <= length p)%nat ->
  estimate_before adapter (p ++ q) i = estimate_before adapter p i.
Proof.
  intros Hi. unfold estimate_before. rewrite firstn_app.
  replace (i - length p)%nat with 0%nat by lia.
  rewrite firstn_O, app_nil_r. reflexivity.
Qed.

Lemma estimate_before_all (p : list T) :
  estimate_before adapter p (length p) = Qprod (estimates adapter p).
Proof.
  unfold estimate_before. rewrite firstn_all. reflexivity.
Qed.

Lemma weighted_cost_prefix (p q : list T) (i : nat) :
  (i < length p)%nat ->
  weighted_cost adapter (p ++ q) i = weighted_cost adapter p i.
Proof.
  intros Hi. unfold weighted_cost.
  rewrite estimate_before_prefix by lia.
  rewrite at_index_prefix by exact Hi. reflexivity.
Qed.

Lemma weighted_cost_last (p : list T) (c : T) :
  weighted_cost adapter (p ++ [c]) (length p)
  = Qprod (estimates adapter p) * flow.cost adapter c.
Proof.
  unfold weighted_cost.
  rewrite estimate_before_prefix by apply Nat.le_refl.
  rewrite estimate_before_all, at_index_last. reflexivity.
Qed.

Lemma cost_before_prefix (p q : list T) (i : nat) :
  (i <= length p)%nat ->
  cost_before adapter (p ++ q) i = cost_before adapter p i.
Proof.
  intros Hi. unfold cost_before. f_equal.
  apply map_ext_in. intros j Hj. apply in_seq in Hj.
  apply weighted_cost_prefix. lia.
Qed.

Lemma cost_before_S (p : list T) (i : nat) :
  cost_before adapter p (S i)
  == cost_before adapter p i + weighted_cost adapter p i.
Proof.
  unfold cost_before. rewrite seq_S, map_app, Qsum_app. simpl. ring.
Qed.

Lemma strict_diff_prefix (p q : list T) (i : nat) :
  (i < length p)%nat ->
  strict_diff adapter (p ++ q) i = strict_diff adapter p i.
Proof.
  intros Hi. unfold strict_diff.
  rewrite !at_index_prefix by exact Hi.
  rewrite cost_before_prefix by lia.
  rewrite weighted_cost_prefix by exact Hi. reflexivity.
Qed.

Lemma strict_diff_last (p : list T) (c : T) :
  strict_diff adapter (p ++ [c]) (length p)
  = (flow.strict_cost adapter c
     + flow.estimate adapter c * cost_before adapter p (length p))
    - (cost_before adapter p (length p)
       + Qprod (estimates adapter p) * flow.cost adapter c).
Proof.
  unfold strict_diff.
  rewrite !at_index_last, weighted_cost_last.
  rewrite cost_before_prefix by apply Nat.le_refl. reflexivity.
Qed.
End Prefix.

Section Select.
Context {T : Type} (adapter : flow.Adapter T).

Lemma select_invariant_init : select_invariant adapter [] flow.select_init.
Proof.
  split; simpl; try reflexivity; try congruence; intros i Hi; inversion Hi.
Qed.

Lemma select_invariant_step (p : list T) (c : T) (st : flow.select_state) :
  (p = [] -> flow.sel_best_idx st = 0%nat) ->
  select_invariant adapter p st ->
  select_invariant adapter (p ++ [c]) (flow.select_step adapter st c).
Proof.
  intros Hinit [Hidx Hcost Hest Hbi Hbd Hleast Hfirst].
  assert (Hlen : length (p ++ [c]) = S (length p))
    by (rewrite length_app; simpl; lia).
  assert (Hmy :
            (flow.strict_cost adapter c + flow.estimate adapter c * flow.sel_cost st)
            - (flow.sel_cost st + flow.sel_est st * flow.cost adapter c)
            == strict_diff adapter (p ++ [c]) (length p)).
  { rewrite strict_diff_last, Hcost, Hest. reflexivity. }
  assert (Hold : forall i, (i < length p)%nat ->
                   strict_diff adapter (p ++ [c]) i = strict_diff adapter p i).
  { intros i Hi. apply strict_diff_prefix, Hi. }
  assert (Hc' : flow.sel_cost st + flow.sel_est st * flow.cost adapter c
                == cost_before adapter (p ++ [c]) (length (p ++ [c]))).
  { rewrite Hlen, cost_before_S, weighted_cost_last.
    rewrite cost_before_prefix by apply Nat.le_refl.
    rewrite Hcost, Hest. reflexivity. }
  assert (He' : flow.sel_est st * flow.estimate adapter c
                == Qprod (estimates adapter (p ++ [c]))).
  { rewrite Hest. unfold estimates. rewrite map_app, Qprod_app. simpl. ring. }
  unfold flow.select_step. rewrite Hidx.
  destruct p as [|c0 p'].
  - (* the first child *)
    specialize (Hinit eq_refl). simpl Nat.eqb. cbv iota.
    split; cbn [flow.sel_idx flow.sel_cost flow.sel_est flow.sel_best_idx
                flow.sel_best_diff]; rewrite ?Hinit;
      try assumption; try reflexivity.
    + intros _. simpl. lia.
    + intros _. rewrite <- Hmy, Hcost. unfold cost_before. simpl. ring.
    + intros i Hi. simpl in Hi. assert (i = 0%nat) by lia. subst i.
      rewrite <- Hmy, Hcost. unfold cost_before. simpl.
      apply Qle_lteq. right. ring.
    + intros i Hi. inversion Hi.
  - (* a later child *)
    set (p := c0 :: p') in *.
    assert (Hne : p <> []) by discriminate.
    specialize (Hbi Hne). specialize (Hbd Hne).
    replace (length p =? 0)%nat with false by reflexivity. cbv iota.
    destruct (Qltb _ _) eqn:Hlt.
    + apply Qltb_true in Hlt. rewrite Hmy in Hlt.
      split; cbn [flow.sel_idx flow.sel_cost flow.sel_est flow.sel_best_idx
                  flow.sel_best_diff];
        try assumption; try (rewrite Hlen; reflexivity).
      * intros _. lia.
      * intros _. exact Hmy.
      * intros i Hi. rewrite Hmy.
        destruct (Nat.eq_dec i (length p)) as [->|Hn]; [apply Qle_refl|].
        assert (Hi' : (i < length p)%nat) by lia.
        rewrite (Hold i Hi'). specialize (Hleast i Hi'). lra.
      * intros i Hi. rewrite Hmy, (Hold i Hi). specialize (Hleast i Hi). lra.
    + apply Qltb_false in Hlt. rewrite Hmy in Hlt.
      split; cbn [flow.sel_idx flow.sel_cost flow.sel_est flow.sel_best_idx
                  flow.sel_best_diff];
        try assumption; try (rewrite Hlen; reflexivity).
      * intros _. lia.
      * intros _. rewrite (Hold _ Hbi). exact Hbd.
      * intros i Hi.
        destruct (Nat.eq_dec i (length p)) as [->|Hn]; [exact Hlt|].
        assert (Hi' : (i < length p)%nat) by lia.
        rewrite (Hold i Hi'). apply Hleast, Hi'.
      * intros i Hi. rewrite Hold by lia. apply Hfirst, Hi.
Qed.

Lemma select_invariant_fold (p : list T) :
  select_invariant adapter p
    (fold_left (flow.select_step adapter) p flow.select_init).
Proof.
  induction p as [|c p IH] using rev_ind.
  - apply select_invariant_init.
  - rewrite fold_left_app. simpl. apply select_invariant_step.
    + intros ->. reflexivity.
    + exact IH.
Qed.
Lemma select_strict_and_child_lt (children : list T) :
  children <> [] ->
  (flow.select_strict_and_child adapter children < length children)%nat.
Proof.
  intros Hne. apply (inv_best_idx _ _ _ (select_invariant_fold children) Hne).
Qed.

Lemma select_strict_and_child_in_range (children : list T) :
  children <> [] ->
  exists the_one,
    nth_error children (flow.select_strict_and_child adapter children)
    = Some the_one.
Proof.
  intros Hne.
  destruct (nth_error children (flow.select_strict_and_child adapter children))
    as [x|] eqn:E.
  - exists x. reflexivity.
  - apply nth_error_None in E.
    pose proof (select_strict_and_child_lt children Hne). lia.
Qed.

End Select.

(** What [strict_diff] measures: the cost of the strict AND that runs child
    [i] first and the others in their order, less the cost of the non-strict
    AND over the order as it is. *)
Lemma and_chain_app {T} (adapter : flow.Adapter T) (l1 l2 : list T) :
  and_chain adapter (l1 ++ l2)
  == and_chain adapter l1 + Qprod (estimates adapter l1) * and_chain adapter l2.
Proof.
  induction l1 as [|c l1 IH]; simpl.
  - ring.
  - rewrite IH. ring.
Qed.

Lemma strict_diff_is_marginal_cost {T} (adapter : flow.Adapter T)
    (order : list T) (i : nat) (the_one : T) :
  nth_error order i = Some the_one ->
  flow.ordered_cost_of adapter
    (the_one :: firstn i order ++ skipn (S i) order) (AndFlow.make 1 true)
  - flow.ordered_cost_of adapter order (AndFlow.make 1 false)
  == strict_diff adapter order i.
Proof.
  intros Hnth.
  assert (Hi : (i < length order)%nat)
    by (apply nth_error_Some; rewrite Hnth; discriminate).
  assert (Hsplit : order = firstn i order ++ the_one :: skipn (S i) order).
  { rewrite <- (firstn_skipn i order) at 1. f_equal.
    clear Hi. revert i Hnth. induction order as [|c t IH]; intros [|i] Hn;
      simpl in *; try discriminate.
    - injection Hn as ->. reflexivity.
    - apply IH, Hn. }
  assert (Hlen : length (firstn i order) = i) by (apply firstn_length_le; lia).
  assert (Hcb : cost_before adapter order i == and_chain adapter (firstn i order)).
  { rewrite and_chain_indexed, Hlen.
    rewrite Hsplit at 1. rewrite cost_before_prefix by lia. reflexivity. }
  assert (Heb : estimate_before adapter order i
                = Qprod (estimates adapter (firstn i order))) by reflexivity.
  unfold strict_diff, weighted_cost, flow.at_index. rewrite Hnth, Hcb, Heb.
  rewrite ordered_cost_of_cons, !And_cost_linear by reflexivity.
  rewrite Hsplit at 3. rewrite !and_chain_app.
  unfold charged. simpl. ring.
Qed.

(** * The order of a strict AND node *)

Lemma assign_length {T} (l : list T) (idx : nat) (v : T) :
  length (assign l idx v) = length l.
Proof.
  revert idx. induction l as [|h t IH]; intros [|idx]; simpl; auto.
Qed.

Lemma assign_firstn {T} (l : list T) (idx i : nat) (v : T) :
  (i <= idx)%nat -> firstn i (assign l idx v) = firstn i l.
Proof.
  revert idx i. induction l as [|h t IH]; intros [|idx] [|i] Hi; simpl;
    try reflexivity; try lia.
  f_equal. apply IH. lia.
Qed.

Lemma assign_skipn {T} (l : list T) (idx : nat) (v : T) :
  (idx < length l)%nat ->
  skipn idx (assign l idx v) = v :: skipn (S idx) l.
Proof.
  revert idx. induction l as [|h t IH]; intros [|idx] Hi; simpl in *;
    try lia; try reflexivity.
  apply IH. lia.
Qed.

Lemma firstn_S_nth_error {T} (l : list T) (i : nat) (x : T) :
  nth_error l i = Some x -> firstn (S i) l = firstn i l ++ [x].
Proof.
  revert i. induction l as [|h t IH]; intros [|i] Hn; simpl in *;
    try discriminate.
  - injection Hn as ->. reflexivity.
  - f_equal. apply IH, Hn.
Qed.

(** The shifting loop moves the children before [idx] one place up and
    leaves the first one behind in its place. *)
Lemma shift_up_spec {T} (idx : nat) (l : list T) :
  (idx < length l)%nat ->
  shift_up l idx = firstn 1 l ++ firstn idx l ++ skipn (S idx) l.
Proof.
  revert l. induction idx as [|i IH]; intros l Hi.
  - simpl shift_up. rewrite firstn_O. simpl app at 2.
    symmetry. apply firstn_skipn.
  - simpl shift_up.
    destruct (nth_error l i) as [prev|] eqn:Hn.
    + rewrite IH by (rewrite assign_length; lia).
      rewrite !assign_firstn by lia.
      rewrite assign_skipn by exact Hi.
      rewrite (firstn_S_nth_error l i prev Hn), <- app_assoc. reflexivity.
    + apply nth_error_None in Hn. lia.
Qed.

(** With [strict] set and more than one child, [AndFlow::sort] yields the
    MinAndCost order with the selected child moved to the front. *)
Lemma AndFlow_sort_strict {T} (adapter : flow.Adapter T) (children : list T) :
  (1 < length children)%nat ->
  let sorted := flow.sort flow.MinAndCost adapter children in
  let idx := flow.select_strict_and_child adapter sorted in
  exists the_one,
    nth_error sorted idx = Some the_one /\
    AndFlow.sort adapter children true
    = the_one :: firstn idx sorted ++ skipn (S idx) sorted.
Proof.
  intros Hlen sorted idx.
  assert (Hls : length sorted = length children).
  { symmetry. apply Permutation_length, std_sort_Permutation. }
  assert (Hne : sorted <> []) by (intros E; rewrite E in Hls; simpl in Hls; lia).
  destruct (select_strict_and_child_in_range adapter sorted Hne) as [the_one Hn].
  fold idx in Hn. exists the_one. split; [exact Hn|].
  unfold AndFlow.sort. fold sorted. fold idx.
  replace (1 <? length sorted)%nat with true
    by (symmetry; apply Nat.ltb_lt; lia).
  simpl andb. cbv iota. rewrite Hn.
  rewrite shift_up_spec
    by (apply nth_error_Some; rewrite Hn; discriminate).
  destruct sorted as [|h t]; [contradiction|]. reflexivity.
Qed.

(** C1, amended: on a non-empty sequence of children
    [select_strict_and_child] returns the first index of least
    [strict_diff], where the value of index 0 is its strict cost less its
    cost, and the value of a later index [i] is
    [strict_cost(i) + estimate(i) * cost_so_far - (cost_so_far + est * cost(i))]
    with [est] the product of the estimates of the children before [i] and
    [cost_so_far] the sum of their costs so weighted. *)
Theorem select_strict_and_child_least_strict_diff {T} (adapter : flow.Adapter T)
    (children : list T) :
  children <> [] ->
  let best := flow.select_strict_and_child adapter children in
  (best < length children)%nat /\
  strict_diff adapter children 0
  == flow.at_index children (flow.strict_cost adapter) 0
     - flow.at_index children (flow.cost adapter) 0 /\
  (forall i, (i < length children)%nat ->
     strict_diff adapter children best <= strict_diff adapter children i) /\
  (forall i, (i < best)%nat ->
     strict_diff adapter children best < strict_diff adapter children i).
Proof.
  intros Hne best.
  destruct (select_invariant_fold adapter children)
    as [_ _ _ Hbi Hbd Hleast Hfirst].
  fold (flow.select_strict_and_child adapter children) in Hbi, Hbd, Hfirst.
  fold best in Hbi, Hbd, Hfirst.
  specialize (Hbi Hne). specialize (Hbd Hne).
  split; [exact Hbi | split; [|split]].
  - unfold strict_diff, weighted_cost, cost_before, estimate_before. simpl. ring.
  - intros i Hi. rewrite <- Hbd. apply Hleast, Hi.
  - intros i Hi. rewrite <- Hbd. apply Hfirst, Hi.
Qed.

Lemma select_strict_and_child_least_strict_diff_witness :
  let children := [half_cost1; half_cost2; never_cost1] in
  let best := flow.select_strict_and_child flow.DefaultAdapter children in
  (best < length children)%nat /\
  strict_diff flow.DefaultAdapter children 0
  == flow.at_index children (flow.strict_cost flow.DefaultAdapter) 0
     - flow.at_index children (flow.cost flow.DefaultAdapter) 0 /\
  (forall i, (i < length children)%nat ->
     strict_diff flow.DefaultAdapter children best
     <= strict_diff flow.DefaultAdapter children i) /\
  (forall i, (i < best)%nat ->
     strict_diff flow.DefaultAdapter children best
     < strict_diff flow.DefaultAdapter children i).
Proof.
  apply (select_strict_and_child_least_strict_diff flow.DefaultAdapter
           [half_cost1; half_cost2; never_cost1]).
  discriminate.
Defined.

(** C1 as stated fails: with the candidate at its raw cost, index 1 has a
    lesser value than index 0 on these two children, which the MinAndCost
    sort leaves in this order, and the selector returns 0. *)
Lemma select_strict_and_child_not_least_raw :
  let children := [half_cost1; half_cost2] in
  Forall (well_formed flow.DefaultAdapter) children /\
  flow.sort flow.MinAndCost flow.DefaultAdapter children = children /\
  flow.select_strict_and_child flow.DefaultAdapter children = 0%nat /\
  ~ (forall i, (i < length children)%nat ->
       raw_strict_diff flow.DefaultAdapter children
         (flow.select_strict_and_child flow.DefaultAdapter children)
       <= raw_strict_diff flow.DefaultAdapter children i).
Proof.
  repeat split.
  - repeat constructor; discriminate.
  - intros H. specialize (H 1%nat (Nat.lt_succ_diag_r 1)).
    vm_compute in H. apply H. reflexivity.
Qed.

(** * Sorting an index instead of the children *)

Section SortMap.
Context {A B : Type} (f : A -> B).

Lemma insert_sorted_map (compA : A -> A -> bool) (compB : B -> B -> bool)
    (a : A) (l : list A) :
  (forall u v, compA u v = compB (f u) (f v)) ->
  map f (flow.insert_sorted compA a l) = flow.insert_sorted compB (f a) (map f l).
Proof.
  intros Hc. induction l as [|h t IH]; simpl.
  - reflexivity.
  - rewrite <- Hc. destruct (compA a h); simpl; [reflexivity|].
    rewrite IH. reflexivity.
Qed.

Lemma std_sort_map (compA : A -> A -> bool) (compB : B -> B -> bool)
    (l : list A) :
  (forall u v, compA u v = compB (f u) (f v)) ->
  map f (flow.std_sort compA l) = flow.std_sort compB (map f l).
Proof.
  intros Hc. unfold flow.std_sort.
  change (@nil B) with (map f []). generalize (@nil A) as acc.
  induction l as [|a l IH]; intros acc; simpl.
  - reflexivity.
  - rewrite IH, (insert_sorted_map compA compB a acc Hc). reflexivity.
Qed.

Lemma assign_map (l : list A) (idx : nat) (v : A) :
  map f (assign l idx v) = assign (map f l) idx (f v).
Proof.
  revert idx. induction l as [|h t IH]; intros [|idx]; simpl;
    try reflexivity.
  rewrite IH. reflexivity.
Qed.

Lemma shift_up_map (l : list A) (idx : nat) :
  map f (shift_up l idx) = shift_up (map f l) idx.
Proof.
  revert l. induction idx as [|i IH]; intros l; simpl.
  - reflexivity.
  - rewrite nth_error_map. destruct (nth_error l i) as [prev|]; simpl.
    + rewrite IH, assign_map. reflexivity.
    + reflexivity.
Qed.

Context (adA : flow.Adapter A) (adB : flow.Adapter B).
Hypothesis agrees : adapter_agrees f adA adB.

Lemma MinAndCost_map (u v : A) :
  flow.MinAndCost adA u v = flow.MinAndCost adB (f u) (f v).
Proof.
  unfold flow.MinAndCost.
  destruct (agrees u) as [-> [-> _]], (agrees v) as [-> [-> _]]. reflexivity.
Qed.

Lemma MinOrCost_map (u v : A) :
  flow.MinOrCost adA u v = flow.MinOrCost adB (f u) (f v).
Proof.
  unfold flow.MinOrCost.
  destruct (agrees u) as [-> [-> _]], (agrees v) as [-> [-> _]]. reflexivity.
Qed.

Lemma MinOrStrictCost_map (u v : A) :
  flow.MinOrStrictCost adA u v = flow.MinOrStrictCost adB (f u) (f v).
Proof.
  unfold flow.MinOrStrictCost.
  destruct (agrees u) as [-> [_ ->]], (agrees v) as [-> [_ ->]]. reflexivity.
Qed.

Lemma select_step_map (st : flow.select_state) (a : A) :
  flow.select_step adA st a = flow.select_step adB st (f a).
Proof.
  unfold flow.select_step. destruct (agrees a) as [-> [-> ->]]. reflexivity.
Qed.

Lemma select_strict_and_child_map (l : list A) :
  flow.select_strict_and_child adA l = flow.select_strict_and_child adB (map f l).
Proof.
  unfold flow.select_strict_and_child. f_equal.
  generalize flow.select_init as st.
  induction l as [|a l IH]; intros st; simpl.
  - reflexivity.
  - rewrite select_step_map. apply IH.
Qed.

Lemma ordered_cost_of_map {F} `{FLOW F} (l : list A) (fl : F) :
  flow.ordered_cost_of adA l fl = flow.ordered_cost_of adB (map f l) fl.
Proof.
  unfold flow.ordered_cost_of. f_equal.
  generalize (0, fl) as st.
  induction l as [|a l IH]; intros st; simpl.
  - reflexivity.
  - rewrite <- IH. f_equal.
    unfold flow.cost_step. destruct (agrees a) as [-> [-> ->]]. reflexivity.
Qed.

Lemma AndFlow_sort_map (l : list A) (strict : bool) :
  map f (AndFlow.sort adA l strict) = AndFlow.sort adB (map f l) strict.
Proof.
  unfold AndFlow.sort, flow.sort.
  rewrite <- (std_sort_map _ (flow.MinAndCost adB) l MinAndCost_map).
  rewrite length_map, <- select_strict_and_child_map, nth_error_map.
  destruct (strict && (1 <? length (flow.std_sort (flow.MinAndCost adA) l))%nat);
    [|reflexivity].
  destruct (nth_error _ _) as [the_one|]; simpl; [|reflexivity].
  rewrite assign_map, shift_up_map. reflexivity.
Qed.

Lemma OrFlow_sort_map (l : list A) (strict : bool) :
  map f (OrFlow.sort adA l strict) = OrFlow.sort adB (map f l) strict.
Proof.
  unfold OrFlow.sort, flow.sort. destruct strict.
  - apply std_sort_map, MinOrStrictCost_map.
  - apply std_sort_map, MinOrCost_map.
Qed.

Lemma AndNotFlow_sort_map (l : list A) (strict : bool) :
  map f (AndNotFlow.sort adA l strict) = AndNotFlow.sort adB (map f l) strict.
Proof.
  unfold AndNotFlow.sort, flow.sort_partial. rewrite length_map.
  destruct (1 <? length l)%nat; [|reflexivity].
  rewrite map_app, firstn_map, skipn_map.
  rewrite (std_sort_map _ (flow.MinOrCost adB) _ MinOrCost_map). reflexivity.
Qed.
End SortMap.

Lemma IndirectAdapter_agrees {T} (adapter : flow.Adapter T) (data : list T) :
  adapter_agrees (nth_error data)
    (flow.IndirectAdapter adapter data) (OptionAdapter adapter).
Proof. intros i. repeat split. Qed.

Lemma OptionAdapter_agrees {T} (adapter : flow.Adapter T) :
  adapter_agrees Some adapter (OptionAdapter adapter).
Proof. intros c. repeat split. Qed.

Lemma make_index_lookup {T} (children : list T) :
  map (nth_error children) (flow.make_index children) = map Some children.
Proof.
  unfold flow.make_index.
  induction children as [|c t IH]; simpl.
  - reflexivity.
  - rewrite <- seq_shift, map_map. f_equal. rewrite <- IH.
    apply map_ext. reflexivity.
Qed.

(** * The cost of each node kind as a chain *)

Lemma Qsum_Permutation (l1 l2 : list double) :
  Permutation l1 l2 -> Qsum l1 == Qsum l2.
Proof.
  induction 1 as [|x l1 l2 _ IH|x y l|l1 l2 l3 _ IH1 _ IH2]; simpl.
  - reflexivity.
  - rewrite IH. reflexivity.
  - ring.
  - rewrite IH1. exact IH2.
Qed.

Lemma chain_le_sum {T} (x c : T -> double) (l : list T) :
  Forall (fun a => (0 <= x a /\ x a <= 1) /\ 0 <= c a) l ->
  0 <= chain x c l /\ chain x c l <= Qsum (map c l).
Proof.
  induction 1 as [|a l [[Hx0 Hx1] Hc] _ [IH0 IH1]]; simpl.
  - split; apply Qle_refl.
  - split; nra.
Qed.

Section KindCost.
Context {T : Type} (adapter : flow.Adapter T).

Local Abbreviation e := (flow.estimate adapter).
Local Abbreviation pass := (rejects adapter).

Lemma and_chain_chain (l : list T) :
  and_chain adapter l == chain pass (flow.cost adapter) l.
Proof.
  induction l as [|a l IH]; simpl.
  - reflexivity.
  - rewrite IH. unfold rejects. ring.
Qed.

Lemma And_cost_chain (l : list T) :
  flow.ordered_cost_of adapter l (AndFlow.make 1 false)
  == chain pass (flow.cost adapter) l.
Proof.
  rewrite And_cost_linear by reflexivity. rewrite and_chain_chain. simpl. ring.
Qed.

Lemma Or_cost_linear (l : list T) (g : OrFlow.t) :
  flow.ordered_cost_of adapter l g
  == OrFlow._flow g
     * chain e (charge_of adapter (OrFlow._strict g)) l.
Proof.
  revert g. induction l as [|a l IH]; intros g.
  - unfold flow.ordered_cost_of. simpl. ring.
  - rewrite ordered_cost_of_cons, IH. unfold charged. simpl.
    unfold OrFlow.strict, OrFlow.flow.
    unfold charge_of. destruct (OrFlow._strict g); ring.
Qed.

Lemma Or_cost_chain (l : list T) (strict : bool) :
  flow.ordered_cost_of adapter l (OrFlow.make 1 strict)
  == chain e (charge_of adapter strict) l.
Proof.
  rewrite Or_cost_linear. simpl. ring.
Qed.

Lemma AndNot_cost_linear (l : list T) (g : AndNotFlow.t) :
  AndNotFlow._first g = false ->
  flow.ordered_cost_of adapter l g
  == AndNotFlow._flow g * chain e (flow.cost adapter) l.
Proof.
  revert g. induction l as [|a l IH]; intros g Hg.
  - unfold flow.ordered_cost_of. simpl. ring.
  - rewrite ordered_cost_of_cons, IH by reflexivity.
    unfold charged. simpl.
    unfold AndNotFlow.strict, AndNotFlow.flow. rewrite Hg, andb_false_r.
    ring.
Qed.

Lemma AndNot_cost_chain (first : T) (rest : list T) (strict : bool) :
  flow.ordered_cost_of adapter (first :: rest) (AndNotFlow.make 1 strict)
  == (if strict then flow.strict_cost adapter first else flow.cost adapter first)
     + e first * chain e (flow.cost adapter) rest.
Proof.
  rewrite ordered_cost_of_cons, AndNot_cost_linear by reflexivity.
  unfold charged. simpl. destruct strict; simpl; ring.
Qed.

Lemma AndFlow_sort_not_strict (children : list T) :
  AndFlow.sort adapter children false
  = flow.std_sort (cross pass (flow.cost adapter)) children.
Proof. reflexivity. Qed.

Lemma OrFlow_sort_cross (children : list T) (strict : bool) :
  OrFlow.sort adapter children strict
  = flow.std_sort
      (cross e (charge_of adapter strict))
      children.
Proof. destruct strict; reflexivity. Qed.

Lemma AndNotFlow_sort_cons (first : T) (rest : list T) (strict : bool) :
  AndNotFlow.sort adapter (first :: rest) strict
  = first :: flow.std_sort (cross e (flow.cost adapter)) rest.
Proof. destruct rest; reflexivity. Qed.

Lemma And_cost_of_direct (children : list T) (strict : bool) :
  FlowMixin.cost_of AndFlow.t adapter children strict
  = flow.ordered_cost_of adapter (AndFlow.sort adapter children strict)
      (AndFlow.make 1 strict).
Proof.
  pose proof (IndirectAdapter_agrees adapter children) as HI.
  pose proof (OptionAdapter_agrees adapter) as HO.
  unfold FlowMixin.cost_of. simpl F_sort. simpl F_make.
  rewrite (ordered_cost_of_map _ _ _ HI),
    (ordered_cost_of_map _ _ _ HO (AndFlow.sort adapter children strict)).
  rewrite (AndFlow_sort_map _ _ _ HI), (AndFlow_sort_map _ _ _ HO).
  rewrite make_index_lookup. reflexivity.
Qed.

Lemma Or_cost_of_direct (children : list T) (strict : bool) :
  FlowMixin.cost_of OrFlow.t adapter children strict
  = flow.ordered_cost_of adapter (OrFlow.sort adapter children strict)
      (OrFlow.make 1 strict).
Proof.
  pose proof (IndirectAdapter_agrees adapter children) as HI.
  pose proof (OptionAdapter_agrees adapter) as HO.
  unfold FlowMixin.cost_of. simpl F_sort. simpl F_make.
  rewrite (ordered_cost_of_map _ _ _ HI),
    (ordered_cost_of_map _ _ _ HO (OrFlow.sort adapter children strict)).
  rewrite (OrFlow_sort_map _ _ _ HI), (OrFlow_sort_map _ _ _ HO).
  rewrite make_index_lookup. reflexivity.
Qed.

Lemma AndNot_cost_of_direct (children : list T) (strict : bool) :
  FlowMixin.cost_of AndNotFlow.t adapter children strict
  = flow.ordered_cost_of adapter (AndNotFlow.sort adapter children strict)
      (AndNotFlow.make 1 strict).
Proof.
  pose proof (IndirectAdapter_agrees adapter children) as HI.
  pose proof (OptionAdapter_agrees adapter) as HO.
  unfold FlowMixin.cost_of. simpl F_sort. simpl F_make.
  rewrite (ordered_cost_of_map _ _ _ HI),
    (ordered_cost_of_map _ _ _ HO (AndNotFlow.sort adapter children strict)).
  rewrite (AndNotFlow_sort_map _ _ _ HI), (AndNotFlow_sort_map _ _ _ HO).
  rewrite make_index_lookup. reflexivity.
Qed.

Lemma And_cost_of_chain (children : list T) :
  FlowMixin.cost_of AndFlow.t adapter children false
  == chain pass (flow.cost adapter)
       (flow.std_sort (cross pass (flow.cost adapter)) children).
Proof.
  rewrite And_cost_of_direct, AndFlow_sort_not_strict. apply And_cost_chain.
Qed.

Lemma Or_cost_of_chain (children : list T) (strict : bool) :
  FlowMixin.cost_of OrFlow.t adapter children strict
  == chain e (charge_of adapter strict)
       (flow.std_sort
          (cross e (charge_of adapter strict))
          children).
Proof.
  rewrite Or_cost_of_direct, OrFlow_sort_cross. apply Or_cost_chain.
Qed.

Lemma AndNot_cost_of_chain (first : T) (rest : list T) (strict : bool) :
  FlowMixin.cost_of AndNotFlow.t adapter (first :: rest) strict
  == (if strict then flow.strict_cost adapter first else flow.cost adapter first)
     + e first
       * chain e (flow.cost adapter)
           (flow.std_sort (cross e (flow.cost adapter)) rest).
Proof.
  rewrite AndNot_cost_of_direct, AndNotFlow_sort_cons. apply AndNot_cost_chain.
Qed.
End KindCost.

(** The order [cost_of] gets by sorting an index through an
    [IndirectAdapter] is the order the node's [sort] gives the children
    themselves: [cost_of] is the ordered cost of the sorted children. *)
Theorem cost_of_sorts_children {T} (adapter : flow.Adapter T)
    (children : list T) (strict : bool) :
  FlowMixin.cost_of AndFlow.t adapter children strict
  = flow.ordered_cost_of adapter (AndFlow.sort adapter children strict)
      (AndFlow.make 1 strict) /\
  FlowMixin.cost_of OrFlow.t adapter children strict
  = flow.ordered_cost_of adapter (OrFlow.sort adapter children strict)
      (OrFlow.make 1 strict) /\
  FlowMixin.cost_of AndNotFlow.t adapter children strict
  = flow.ordered_cost_of adapter (AndNotFlow.sort adapter children strict)
      (AndNotFlow.make 1 strict).
Proof.
  split; [|split].
  - apply And_cost_of_direct.
  - apply Or_cost_of_direct.
  - apply AndNot_cost_of_direct.
Qed.

(** [sort] of each node kind hands back the children it was given, each
    once, whatever the strictness. *)
Lemma nth_error_split_at {T} (l : list T) (i : nat) (x : T) :
  nth_error l i = Some x -> l = firstn i l ++ x :: skipn (S i) l.
Proof.
  revert i. induction l as [|h t IH]; intros [|i] Hn; simpl in *;
    try discriminate.
  - injection Hn as ->. reflexivity.
  - f_equal. apply IH, Hn.
Qed.

Lemma AndFlow_sort_Permutation {T} (adapter : flow.Adapter T)
    (children : list T) (strict : bool) :
  Permutation children (AndFlow.sort adapter children strict).
Proof.
  pose proof (std_sort_Permutation (flow.MinAndCost adapter) children) as HP.
  destruct strict; [|exact HP].
  destruct (Nat.lt_ge_cases 1 (length children)) as [Hlen|Hlen].
  - destruct (AndFlow_sort_strict adapter children Hlen) as [the_one [Hn ->]].
    unfold flow.sort in *.
    set (sorted := flow.std_sort (flow.MinAndCost adapter) children) in *.
    set (idx := flow.select_strict_and_child adapter sorted) in *.
    clearbody idx. clearbody sorted.
    apply perm_trans with (firstn idx sorted ++ the_one :: skipn (S idx) sorted).
    + rewrite <- (nth_error_split_at sorted idx the_one Hn). exact HP.
    + apply Permutation_sym, Permutation_middle.
  - unfold AndFlow.sort.
    assert (Hl : length (flow.sort flow.MinAndCost adapter children)
                 = length children)
      by (symmetry; apply Permutation_length, HP).
    rewrite Hl.
    replace (1 <? length children)%nat with false
      by (symmetry; apply Nat.ltb_ge; exact Hlen).
    exact HP.
Qed.

Theorem sort_Permutation {T} (adapter : flow.Adapter T)
    (children : list T) (strict : bool) :
  Permutation children (AndFlow.sort adapter children strict) /\
  Permutation children (OrFlow.sort adapter children strict) /\
  Permutation children (AndNotFlow.sort adapter children strict).
Proof.
  split; [|split].
  - apply AndFlow_sort_Permutation.
  - unfold OrFlow.sort. destruct strict; apply std_sort_Permutation.
  - destruct children as [|first rest]; [apply Permutation_refl|].
    rewrite AndNotFlow_sort_cons. apply perm_skip, std_sort_Permutation.
Qed.

(** [AndFlow::sort] sorts by MinAndCost; when [strict] is set and there is
    more than one child it then moves the child that
    [select_strict_and_child] picks to the front and shifts the children
    before it one place up, keeping the order of all the others. *)
Theorem AndFlow_sort_moves_selected_first {T} (adapter : flow.Adapter T)
    (children : list T) (strict : bool) :
  let sorted := flow.sort flow.MinAndCost adapter children in
  let idx := flow.select_strict_and_child adapter sorted in
  if strict && (1 <? length children)%nat
  then exists the_one,
         nth_error sorted idx = Some the_one /\
         AndFlow.sort adapter children strict
         = the_one :: firstn idx sorted ++ skipn (S idx) sorted
  else AndFlow.sort adapter children strict = sorted.
Proof.
  intros sorted idx.
  assert (Hl : length sorted = length children)
    by (symmetry; apply Permutation_length, std_sort_Permutation).
  destruct strict; simpl andb.
  - destruct (1 <? length children)%nat eqn:E.
    + apply Nat.ltb_lt in E. apply (AndFlow_sort_strict adapter children E).
    + unfold AndFlow.sort. fold sorted. rewrite Hl, E. reflexivity.
  - reflexivity.
Qed.


(** * What [cost_of] sums over *)

Lemma AndFlow_sort_And_order {T} (adapter : flow.Adapter T)
    (children : list T) (strict : bool) :
  And_order adapter strict children (AndFlow.sort adapter children strict).
Proof.
  exists (flow.sort flow.MinAndCost adapter children).
  split; [apply std_sort_Permutation|].
  split; [apply std_sort_Sorted, MinAndCost_asymmetric|].
  destruct strict; [|reflexivity].
  destruct (1 <? length children)%nat eqn:Hlen; cbn [andb].
  - apply Nat.ltb_lt in Hlen.
    exact (AndFlow_sort_strict adapter children Hlen).
  - unfold AndFlow.sort, flow.sort.
    rewrite <- (Permutation_length
                  (std_sort_Permutation (flow.MinAndCost adapter) children)).
    rewrite Hlen. reflexivity.
Qed.

Lemma OrFlow_sort_Or_order {T} (adapter : flow.Adapter T)
    (children : list T) (strict : bool) :
  Or_order adapter strict children (OrFlow.sort adapter children strict).
Proof.
  unfold Or_order, OrFlow.sort.
  destruct strict; (split; [apply std_sort_Permutation|]); apply std_sort_Sorted.
  - apply MinOrStrictCost_asymmetric.
  - apply MinOrCost_asymmetric.
Qed.

Lemma AndNotFlow_sort_AndNot_order {T} (adapter : flow.Adapter T)
    (children : list T) (strict : bool) :
  AndNot_order adapter children (AndNotFlow.sort adapter children strict).
Proof.
  destruct children as [|first rest].
  - repeat split; constructor.
  - rewrite AndNotFlow_sort_cons. unfold AndNot_order. cbn [hd_error tl].
    split; [reflexivity|].
    split; [apply std_sort_Permutation|].
    apply std_sort_Sorted, MinOrCost_asymmetric.
Qed.

(** Read through the children, the order of the indices is the order the
    node's [sort] gives the children themselves. *)
Lemma AndFlow_sort_lookup {T} (adapter : flow.Adapter T)
    (children : list T) (strict : bool) :
  map (nth_error children)
    (AndFlow.sort (flow.IndirectAdapter adapter children)
       (flow.make_index children) strict)
  = map Some (AndFlow.sort adapter children strict).
Proof.
  rewrite (AndFlow_sort_map _ _ _ (IndirectAdapter_agrees adapter children)).
  rewrite make_index_lookup.
  rewrite <- (AndFlow_sort_map _ _ _ (OptionAdapter_agrees adapter)).
  reflexivity.
Qed.

Lemma OrFlow_sort_lookup {T} (adapter : flow.Adapter T)
    (children : list T) (strict : bool) :
  map (nth_error children)
    (OrFlow.sort (flow.IndirectAdapter adapter children)
       (flow.make_index children) strict)
  = map Some (OrFlow.sort adapter children strict).
Proof.
  rewrite (OrFlow_sort_map _ _ _ (IndirectAdapter_agrees adapter children)).
  rewrite make_index_lookup.
  rewrite <- (OrFlow_sort_map _ _ _ (OptionAdapter_agrees adapter)).
  reflexivity.
Qed.

Lemma AndNotFlow_sort_lookup {T} (adapter : flow.Adapter T)
    (children : list T) (strict : bool) :
  map (nth_error children)
    (AndNotFlow.sort (flow.IndirectAdapter adapter children)
       (flow.make_index children) strict)
  = map Some (AndNotFlow.sort adapter children strict).
Proof.
  rewrite (AndNotFlow_sort_map _ _ _ (IndirectAdapter_agrees adapter children)).
  rewrite make_index_lookup.
  rewrite <- (AndNotFlow_sort_map _ _ _ (OptionAdapter_agrees adapter)).
  reflexivity.
Qed.

Lemma AndNotFlow_sort_Permutation {T} (adapter : flow.Adapter T)
    (children : list T) (strict : bool) :
  Permutation children (AndNotFlow.sort adapter children strict).
Proof.
  destruct children as [|first rest]; [apply Permutation_refl|].
  rewrite AndNotFlow_sort_cons. apply perm_skip, std_sort_Permutation.
Qed.

(** C2: [cost_of] sorts the indices of all the children with the sort of
    the node kind, and returns the sum, over that order, of the flow times
    the cost charged, both read before the child is added: the strict cost
    while the accumulator is strict, the cost otherwise.  The order holds
    the index of every child once, it is sorted as the node kind
    prescribes, and read through the children it is the order the sort
    gives the children themselves, over which the sum is the same.  For a
    strict AND the sum charges the first child of the order its strict
    cost, and every later child its cost times the product of the
    estimates of the children before it. *)
Theorem cost_of_is_flow_weighted_sum {T} (adapter : flow.Adapter T)
    (children : list T) (strict : bool) :
  let my_adapter := flow.IndirectAdapter adapter children in
  let index := seq 0 (length children) in
  (let order := AndFlow.sort my_adapter (flow.make_index children) strict in
   let sorted := AndFlow.sort adapter children strict in
   Permutation index order /\
   And_order my_adapter strict index order /\
   map (nth_error children) order = map Some sorted /\
   FlowMixin.cost_of AndFlow.t adapter children strict
   == flow_weighted_sum my_adapter order (AndFlow.make 1 strict) /\
   FlowMixin.cost_of AndFlow.t adapter children strict
   == flow_weighted_sum adapter sorted (AndFlow.make 1 strict)) /\
  (let order := AndFlow.sort my_adapter (flow.make_index children) true in
   let sorted := AndFlow.sort adapter children true in
   FlowMixin.cost_of AndFlow.t adapter children true
   == And_strict_cost my_adapter order /\
   FlowMixin.cost_of AndFlow.t adapter children true
   == And_strict_cost adapter sorted) /\
  (let order := OrFlow.sort my_adapter (flow.make_index children) strict in
   let sorted := OrFlow.sort adapter children strict in
   Or_order my_adapter strict index order /\
   map (nth_error children) order = map Some sorted /\
   FlowMixin.cost_of OrFlow.t adapter children strict
   == flow_weighted_sum my_adapter order (OrFlow.make 1 strict) /\
   FlowMixin.cost_of OrFlow.t adapter children strict
   == flow_weighted_sum adapter sorted (OrFlow.make 1 strict)) /\
  (let order := AndNotFlow.sort my_adapter (flow.make_index children) strict in
   let sorted := AndNotFlow.sort adapter children strict in
   Permutation index order /\
   AndNot_order my_adapter index order /\
   map (nth_error children) order = map Some sorted /\
   FlowMixin.cost_of AndNotFlow.t adapter children strict
   == flow_weighted_sum my_adapter order (AndNotFlow.make 1 strict) /\
   FlowMixin.cost_of AndNotFlow.t adapter children strict
   == flow_weighted_sum adapter sorted (AndNotFlow.make 1 strict)).
Proof.
  intros my_adapter index. split; [|split; [|split]].
  - split; [apply AndFlow_sort_Permutation|].
    split; [apply AndFlow_sort_And_order|].
    split; [apply AndFlow_sort_lookup|].
    split.
    + unfold FlowMixin.cost_of. apply ordered_cost_of_weighted.
    + rewrite And_cost_of_direct. apply ordered_cost_of_weighted.
  - split.
    + unfold FlowMixin.cost_of. apply And_strict_cost_closed.
    + rewrite And_cost_of_direct. apply And_strict_cost_closed.
  - split; [apply OrFlow_sort_Or_order|].
    split; [apply OrFlow_sort_lookup|].
    split.
    + unfold FlowMixin.cost_of. apply ordered_cost_of_weighted.
    + rewrite Or_cost_of_direct. apply ordered_cost_of_weighted.
  - split; [apply AndNotFlow_sort_Permutation|].
    split; [apply AndNotFlow_sort_AndNot_order|].
    split; [apply AndNotFlow_sort_lookup|].
    split.
    + unfold FlowMixin.cost_of. apply ordered_cost_of_weighted.
    + rewrite AndNot_cost_of_direct. apply ordered_cost_of_weighted.
Qed.

(** * The comparators, the sort and the estimate in binary64 *)

Section Binary64Facts.
Local Open Scope float_scope.

Lemma SFcompare_antisym (x y : spec_float) :
  SFcompare y x = option_map CompOpp (SFcompare x y).
Proof.
  destruct x as [sx|sx| |sx mx ex], y as [sy|sy| |sy my ey]; simpl;
    try reflexivity;
    try (destruct sx; reflexivity); try (destruct sy; reflexivity);
    try (destruct sx, sy; reflexivity).
  assert (Hm : Pos.compare_cont Eq my mx = CompOpp (Pos.compare_cont Eq mx my))
    by (rewrite Pos.compare_cont_antisym; reflexivity).
  rewrite (Z.compare_antisym ex ey), Hm.
  destruct sx, sy, (ex ?= ey)%Z, (Pos.compare_cont Eq mx my); reflexivity.
Qed.

Lemma float_ltb_asym (x y : float) : (x <? y) = true -> (y <? x) = false.
Proof.
  rewrite !ltb_spec. unfold SFltb. rewrite (SFcompare_antisym (Prim2SF x) (Prim2SF y)).
  destruct (SFcompare (Prim2SF x) (Prim2SF y)) as [[| |]|]; simpl;
    intros H; try discriminate H; reflexivity.
Qed.

Lemma float_ltb_irrefl (x : float) : (x <? x) = false.
Proof.
  destruct (x <? x) eqn:E; [|reflexivity].
  rewrite (float_ltb_asym x x E) in E. discriminate E.
Qed.

Lemma float_gtb_asym (x y : float) :
  binary64.gtb x y = true -> binary64.gtb y x = false.
Proof. unfold binary64.gtb. apply float_ltb_asym. Qed.

Lemma float_gtb_irrefl (x : float) : binary64.gtb x x = false.
Proof. apply float_ltb_irrefl. Qed.
End Binary64Facts.

Section Binary64Mul.
Local Open Scope float_scope.

Lemma float_mul_comm (x y : float) : x * y = y * x.
Proof.
  apply Prim2SF_inj. rewrite !mul_spec. unfold SF64mul.
  destruct (Prim2SF x) as [sx|sx| |sx mx ex], (Prim2SF y) as [sy|sy| |sy my ey];
    cbn [SFmul]; try reflexivity; try (destruct sx, sy; reflexivity).
  rewrite (Pos.mul_comm my mx), (Z.add_comm ey ex), (xorb_comm sy sx).
  reflexivity.
Qed.

Lemma Prim2SF_one : Prim2SF 1 = S754_finite false 4503599627370496 (-52).
Proof. reflexivity. Qed.

(** The mantissa of 1.0 times [m] is [m] followed by 52 zero bits. *)
Lemma two52_mul (m : positive) :
  (4503599627370496 * m)%positive = Pos.iter xO m 52.
Proof. reflexivity. Qed.

Lemma two52_digits2 (m : positive) :
  Z.pos (digits2_pos (Pos.iter xO m 52)) = (Z.pos (digits2_pos m) + 52)%Z.
Proof.
  change (digits2_pos (Pos.iter xO m 52))
    with (Pos.iter Pos.succ (digits2_pos m) 52).
  generalize (digits2_pos m) as d. intros d. cbv [Pos.iter]. lia.
Qed.

Lemma two52_shr (m : positive) :
  SpecFloat.iter_pos shr_1 52
    {| shr_m := Z.pos (Pos.iter xO m 52); shr_r := false; shr_s := false |}
  = {| shr_m := Z.pos m; shr_r := false; shr_s := false |}.
Proof. reflexivity. Qed.

Lemma binary_round_aux_two52 (s : bool) (m : positive) (e : Z) :
  SpecFloat.bounded prec emax m e = true ->
  binary_round_aux prec emax s (Z.pos (4503599627370496 * m)) (-52 + e) loc_Exact
  = S754_finite s m e.
Proof.
  intros Hv. unfold SpecFloat.bounded, canonical_mantissa in Hv.
  apply andb_prop in Hv. destruct Hv as [Hc Hb]. apply Z.eqb_eq in Hc.
  rewrite two52_mul.
  unfold binary_round_aux, shr_fexp.
  change (Zdigits2 (Z.pos (Pos.iter xO m 52)))
    with (Z.pos (digits2_pos (Pos.iter xO m 52))).
  rewrite two52_digits2.
  replace (Z.pos (digits2_pos m) + 52 + (-52 + e))%Z
    with (Z.pos (digits2_pos m) + e)%Z by lia.
  rewrite Hc.
  replace (e - (-52 + e))%Z with 52%Z by lia.
  change (shr (shr_record_of_loc (Z.pos (Pos.iter xO m 52)) loc_Exact)
            (-52 + e) 52)
    with (SpecFloat.iter_pos shr_1 52
            {| shr_m := Z.pos (Pos.iter xO m 52); shr_r := false;
               shr_s := false |},
          (-52 + e + 52)%Z).
  rewrite two52_shr.
  replace (-52 + e + 52)%Z with e by lia.
  cbv beta iota. cbn [shr_m loc_of_shr_record round_nearest_even].
  change (Zdigits2 (Z.pos m)) with (Z.pos (digits2_pos m)).
  rewrite Hc, Z.sub_diag. cbn [shr shr_record_of_loc shr_m].
  rewrite Hb. reflexivity.
Qed.

Lemma float_mul_1_l (x : float) : 1 * x = x.
Proof.
  apply Prim2SF_inj. rewrite mul_spec, Prim2SF_one. unfold SF64mul.
  pose proof (Prim2SF_valid x) as Hv.
  destruct (Prim2SF x) as [s|s| |s m e]; try reflexivity.
  cbn [SFmul xorb]. apply binary_round_aux_two52. exact Hv.
Qed.
End Binary64Mul.

Section Binary64Zero.
Local Open Scope float_scope.

Lemma float_eqb_zero (x : float) : (x =? 0) = true -> zero_or_nan (Prim2SF x).
Proof.
  rewrite FloatAxioms.eqb_spec. change (Prim2SF 0) with (S754_zero false).
  unfold SFeqb.
  destruct (Prim2SF x) as [s|s| |s m e]; cbn [SFcompare zero_or_nan];
    try exact (fun _ => I); destruct s; discriminate.
Qed.

Lemma float_eqb_one (x : float) : (x =? 1) = true -> x = 1.
Proof.
  rewrite FloatAxioms.eqb_spec, Prim2SF_one. unfold SFeqb. intros H.
  apply Prim2SF_inj. rewrite Prim2SF_one.
  destruct (Prim2SF x) as [s|s| |s m e]; cbn [SFcompare] in H;
    try discriminate H; try (destruct s; discriminate H).
  destruct s; [discriminate H|].
  destruct (e ?= -52)%Z eqn:Ee; try discriminate H.
  apply Z.compare_eq in Ee. subst e.
  destruct (Pos.compare_cont Eq m 4503599627370496) eqn:Em; try discriminate H.
  apply Pos.compare_eq in Em. subst m. reflexivity.
Qed.

Lemma zero_or_nan_mul_l (x y : float) :
  zero_or_nan (Prim2SF x) -> zero_or_nan (Prim2SF (x * y)).
Proof.
  rewrite mul_spec. unfold SF64mul.
  destruct (Prim2SF x) as [sx|sx| |sx mx ex]; cbn [zero_or_nan]; intros H;
    try contradiction H;
    destruct (Prim2SF y) as [sy|sy| |sy my ey]; cbn [SFmul zero_or_nan];
    exact I.
Qed.

Lemma zero_or_nan_mul_r (x y : float) :
  zero_or_nan (Prim2SF y) -> zero_or_nan (Prim2SF (x * y)).
Proof. rewrite float_mul_comm. apply zero_or_nan_mul_l. Qed.

Lemma zero_or_nan_not_ltb (x y : float) :
  zero_or_nan (Prim2SF x) -> zero_or_nan (Prim2SF y) -> (x <? y) = false.
Proof.
  rewrite ltb_spec. unfold SFltb.
  destruct (Prim2SF x) as [sx|sx| |sx mx ex]; cbn [zero_or_nan]; intros Hx;
    try contradiction Hx;
    destruct (Prim2SF y) as [sy|sy| |sy my ey]; cbn [zero_or_nan]; intros Hy;
    try contradiction Hy; reflexivity.
Qed.

Lemma incomparable_gtb_zero (x y : float) :
  zero_or_nan (Prim2SF x) -> zero_or_nan (Prim2SF y) ->
  binary64.gtb x y = false /\ binary64.gtb y x = false.
Proof.
  intros Hx Hy. unfold binary64.gtb.
  split; apply zero_or_nan_not_ltb; assumption.
Qed.
End Binary64Zero.

Section Binary64Comparators.
Context {T : Type} (adapter : binary64.Adapter T).
Local Open Scope float_scope.

Lemma MinAndCost64_laws (a b : T) :
  comparator_laws (binary64.MinAndCost adapter) (binary64.free_always adapter) a b.
Proof.
  unfold comparator_laws, binary64.MinAndCost. split; [|split].
  - apply float_gtb_irrefl.
  - apply float_gtb_asym.
  - intros [He Hc]. apply float_eqb_one in He. apply float_eqb_zero in Hc.
    unfold incomparable. rewrite He.
    replace (1 - 1) with 0 by reflexivity.
    apply incomparable_gtb_zero.
    + apply zero_or_nan_mul_r, Hc.
    + apply zero_or_nan_mul_l. exact I.
Qed.

Lemma MinOrCost64_laws (a b : T) :
  comparator_laws (binary64.MinOrCost adapter) (binary64.free_never adapter) a b.
Proof.
  unfold comparator_laws, binary64.MinOrCost. split; [|split].
  - apply float_gtb_irrefl.
  - apply float_gtb_asym.
  - intros [He Hc]. apply float_eqb_zero in He, Hc.
    apply incomparable_gtb_zero.
    + apply zero_or_nan_mul_r, Hc.
    + apply zero_or_nan_mul_l, He.
Qed.

Lemma MinOrStrictCost64_laws (a b : T) :
  comparator_laws (binary64.MinOrStrictCost adapter)
    (binary64.strict_free_never adapter) a b.
Proof.
  unfold comparator_laws, binary64.MinOrStrictCost. split; [|split].
  - apply float_gtb_irrefl.
  - apply float_gtb_asym.
  - intros [He Hc]. apply float_eqb_zero in He, Hc.
    apply incomparable_gtb_zero.
    + apply zero_or_nan_mul_r, Hc.
    + apply zero_or_nan_mul_l, He.
Qed.

Lemma MinAndCost64_asymmetric : asymmetric (binary64.MinAndCost adapter).
Proof. intros a b. apply (MinAndCost64_laws a b). Qed.
End Binary64Comparators.

Lemma Permutation_short {A} (l l' : list A) :
  Permutation l l' -> (length l <= 2)%nat ->
  l' = l \/ exists a b, l = [a; b] /\ l' = [b; a].
Proof.
  intros HP Hlen. destruct l as [|a [|b [|c t]]].
  - left. apply Permutation_nil, HP.
  - left. apply Permutation_length_1_inv, HP.
  - apply Permutation_length_2_inv in HP. destruct HP as [->| ->].
    + left. reflexivity.
    + right. exists a, b. split; reflexivity.
  - simpl in Hlen. lia.
Qed.

Section Binary64Estimate.
Context {T : Type} (adapter : binary64.Adapter T).
Local Open Scope float_scope.

Lemma And64_estimate_of_two (a b : T) :
  binary64.estimate_of adapter [a; b] (binary64.AndFlow_make 1 false)
  = binary64.estimate adapter a * binary64.estimate adapter b.
Proof.
  unfold binary64.estimate_of. cbn. rewrite float_mul_1_l. reflexivity.
Qed.

Lemma Or64_estimate_of_two (a b : T) :
  binary64.estimate_of adapter [a; b] (binary64.OrFlow_make 1 false)
  = 1 - (1 - binary64.estimate adapter a) * (1 - binary64.estimate adapter b).
Proof.
  unfold binary64.estimate_of. cbn. rewrite float_mul_1_l. reflexivity.
Qed.
End Binary64Estimate.







(** C5, amended: each of MinAndCost, MinOrCost and MinOrStrictCost, as
    computed in binary64, is irreflexive and asymmetric, and a degenerate
    child (estimate 1 and cost 0 for MinAndCost, estimate 0 and cost 0 for
    MinOrCost, estimate 0 and strict cost 0 for MinOrStrictCost) is tied
    with every child. *)
Theorem comparators_laws {T} (adapter : binary64.Adapter T) (a b : T) :
  comparator_laws (binary64.MinAndCost adapter)
    (binary64.free_always adapter) a b /\
  comparator_laws (binary64.MinOrCost adapter)
    (binary64.free_never adapter) a b /\
  comparator_laws (binary64.MinOrStrictCost adapter)
    (binary64.strict_free_never adapter) a b.
Proof.
  split; [|split].
  - apply MinAndCost64_laws.
  - apply MinOrCost64_laws.
  - apply MinOrStrictCost64_laws.
Qed.

Lemma comparators_laws_witness :
  binary64.MinAndCost binary64.DefaultAdapter (child64 0.5 2) (child64 0.5 1)
  = false /\
  incomparable (binary64.MinAndCost binary64.DefaultAdapter)
    (child64 0.3 0.9) (child64 1 0) /\
  incomparable (binary64.MinOrCost binary64.DefaultAdapter)
    (child64 0.3 0.9) (child64 0 0) /\
  incomparable (binary64.MinOrStrictCost binary64.DefaultAdapter)
    (child64 0.3 0.9) (child64 0 0).
Proof.
  split; [|split; [|split]].
  - apply (proj1 (proj2 (proj1 (comparators_laws binary64.DefaultAdapter
                                  (child64 0.5 1) (child64 0.5 2))))).
    reflexivity.
  - apply (comparators_laws binary64.DefaultAdapter
             (child64 0.3 0.9) (child64 1 0)).
    split; reflexivity.
  - apply (comparators_laws binary64.DefaultAdapter
             (child64 0.3 0.9) (child64 0 0)).
    split; reflexivity.
  - apply (comparators_laws binary64.DefaultAdapter
             (child64 0.3 0.9) (child64 0 0)).
    split; reflexivity.
Defined.

(** C5 as stated fails.  A degenerate child ties with two children of which
    one is less than the other, for each of the three comparators.  In
    binary64 also children that are not degenerate break the laws: less-than
    is not transitive, and ties are not transitive. *)
Lemma comparators_not_strict_weak :
  (Forall (well_formed flow.DefaultAdapter)
     [never_cost1; never_cost2; half_cost1; half_cost2; always_free; never_free] /\
   ~ strict_weak_order_at (flow.MinAndCost flow.DefaultAdapter)
       never_cost1 always_free never_cost2 /\
   ~ strict_weak_order_at (flow.MinOrCost flow.DefaultAdapter)
       half_cost1 never_free half_cost2 /\
   ~ strict_weak_order_at (flow.MinOrStrictCost flow.DefaultAdapter)
       half_cost1 never_free half_cost2) /\
  (Forall (binary64.well_formed binary64.DefaultAdapter)
     [child64 0.01 0.03; child64 0.13 0.39; child64 0.29 0.87;
      child64 0.88 0.36; child64 0.38 1.86; child64 0.64 1.08;
      child64 0.7 2.1; child64 0.3 0.9; child64 0.9 2.7] /\
   ~ strict_weak_order_at (binary64.MinOrCost binary64.DefaultAdapter)
       (child64 0.01 0.03) (child64 0.13 0.39) (child64 0.29 0.87) /\
   ~ strict_weak_order_at (binary64.MinOrStrictCost binary64.DefaultAdapter)
       (child64 0.01 0.03) (child64 0.13 0.39) (child64 0.29 0.87) /\
   ~ strict_weak_order_at (binary64.MinAndCost binary64.DefaultAdapter)
       (child64 0.88 0.36) (child64 0.38 1.86) (child64 0.64 1.08) /\
   ~ strict_weak_order_at (binary64.MinOrCost binary64.DefaultAdapter)
       (child64 0.9 2.7) (child64 0.3 0.9) (child64 0.7 2.1)).
Proof.
  split.
  - split; [exact sample_children_well_formed|].
    repeat split; intros [_ [_ H]];
      (destruct H as [H _];
       [split; reflexivity | split; reflexivity | discriminate H]).
  - split; [repeat constructor|].
    split; [|split; [|split]].
    + intros [_ [H _]]. specialize (H eq_refl eq_refl). discriminate H.
    + intros [_ [H _]]. specialize (H eq_refl eq_refl). discriminate H.
    + intros [_ [H _]]. specialize (H eq_refl eq_refl). discriminate H.
    + intros [_ [_ H]]. destruct H as [H _];
        [split; reflexivity | split; reflexivity | discriminate H].
Qed.

(** * Bounds on costs and estimates *)

Lemma Qprod_le_member (l : list double) (x : double) :
  Forall unit_interval l -> In x l -> Qprod l <= x.
Proof.
  intros Hl. induction Hl as [|h t [Hh0 Hh1] Ht IH]; intros Hin.
  - destruct Hin.
  - pose proof (Qprod_unit t Ht) as [Hp0 Hp1]. simpl.
    destruct Hin as [->|Hin].
    + nra.
    + specialize (IH Hin). nra.
Qed.

Lemma estimates_unit {T} (adapter : flow.Adapter T) (children : list T) :
  Forall (well_formed adapter) children ->
  Forall unit_interval (estimates adapter children).
Proof.
  intros H. unfold estimates. apply Forall_map. revert H.
  apply Forall_impl. intros c [Hc _]. exact Hc.
Qed.

(** On well-formed children the estimate of an AND node is at most the
    estimate of each child, and the estimate of an AND-NOT node is at most
    the estimate of its first child. *)
Theorem estimate_of_bounds {T} (adapter : flow.Adapter T) (children : list T) :
  Forall (well_formed adapter) children ->
  (forall c, In c children ->
     FlowMixin.estimate_of AndFlow.t adapter children <= flow.estimate adapter c) /\
  (forall first rest, children = first :: rest ->
     FlowMixin.estimate_of AndNotFlow.t adapter children
     <= flow.estimate adapter first).
Proof.
  intros Hwf. pose proof (estimates_unit adapter children Hwf) as He. split.
  - intros c Hc.
    rewrite And_estimate_of_closed.
    destruct children as [|c0 l]; [destruct Hc|].
    apply Qprod_le_member; [exact He|].
    unfold estimates. apply in_map, Hc.
  - intros first rest ->. rewrite AndNot_estimate_of_closed.
    inversion Hwf as [|? ? [[Hf0 Hf1] _] Hwr]; subst.
    pose proof (complements_unit _ (estimates_unit adapter rest Hwr)) as Hc.
    pose proof (Qprod_unit _ Hc) as [Hp0 Hp1].
    nra.
Qed.

Lemma estimate_of_bounds_witness :
  (forall c, In c and_not_children ->
     FlowMixin.estimate_of AndFlow.t flow.DefaultAdapter and_not_children
     <= flow.estimate flow.DefaultAdapter c) /\
  (forall first rest, and_not_children = first :: rest ->
     FlowMixin.estimate_of AndNotFlow.t flow.DefaultAdapter and_not_children
     <= flow.estimate flow.DefaultAdapter first).
Proof.
  apply (estimate_of_bounds flow.DefaultAdapter and_not_children).
  repeat constructor; discriminate.
Defined.

Section CostBounds.
Context {T : Type} (adapter : flow.Adapter T).

Lemma well_formed_rejects (l : list T) :
  Forall (well_formed adapter) l ->
  Forall (fun a => (0 <= rejects adapter a /\ rejects adapter a <= 1)
                   /\ 0 <= flow.cost adapter a) l.
Proof.
  apply Forall_impl. intros c [[H0 H1] [Hc _]]. unfold rejects.
  repeat split; lra.
Qed.

Lemma well_formed_charge (strict : bool) (l : list T) :
  Forall (well_formed adapter) l ->
  Forall (fun a => (0 <= flow.estimate adapter a /\ flow.estimate adapter a <= 1)
                   /\ 0 <= charge_of adapter strict a) l.
Proof.
  apply Forall_impl. intros c [[H0 H1] [Hc Hs]]. unfold charge_of.
  repeat split; try assumption. destruct strict; assumption.
Qed.

Lemma Qsum_map_Permutation (f : T -> double) (l l' : list T) :
  Permutation l l' -> Qsum (map f l) == Qsum (map f l').
Proof.
  intros HP. apply Qsum_Permutation, Permutation_map, HP.
Qed.

Lemma And_strict_cost_nonneg (l : list T) :
  Forall (well_formed adapter) l ->
  0 <= flow.ordered_cost_of adapter l (AndFlow.make 1 true).
Proof.
  intros Hwf. destruct l as [|first rest].
  - apply Qle_refl.
  - rewrite ordered_cost_of_cons, And_cost_linear by reflexivity.
    rewrite and_chain_chain. unfold charged. simpl.
    inversion Hwf as [|? ? [[Hf0 _] [_ Hs]] Hwr]; subst.
    destruct (chain_le_sum _ _ rest (well_formed_rejects rest Hwr)) as [Hc _].
    unfold AndFlow.flow. simpl. nra.
Qed.
End CostBounds.



(** * BM25 *)

Section Bm25.
Import bm25.
Local Open Scope R_scope.

Lemma Rdiv_le_upper (a d c : R) : 0 < d -> a <= c * d -> a / d <= c.
Proof.
  intros Hd H. apply (Rmult_le_reg_r d); [exact Hd|].
  unfold Rdiv. rewrite Rmult_assoc, Rinv_l by Lra.lra. Lra.lra.
Qed.

Lemma Rdiv_le_lower (a d c : R) : 0 < d -> c * d <= a -> c <= a / d.
Proof.
  intros Hd H. apply (Rmult_le_reg_r d); [exact Hd|].
  unfold Rdiv. rewrite Rmult_assoc, Rinv_l by Lra.lra. Lra.lra.
Qed.

Lemma Rdiv_le_cross (a b c d : R) :
  0 < b -> 0 < d -> a * d <= c * b -> a / b <= c / d.
Proof.
  intros Hb Hd H. apply Rdiv_le_upper; [exact Hb|].
  unfold Rdiv. rewrite Rmult_assoc, (Rmult_comm (/ d)), <- Rmult_assoc.
  apply Rdiv_le_lower; assumption.
Qed.

Lemma wrap32_nonneg (z : Z) : 0 <= IZR (wrap32 z).
Proof.
  apply IZR_le. unfold wrap32. apply Z.mod_pos_bound. reflexivity.
Qed.

Lemma idf_positive (matching total : Z) :
  uint32 matching -> 0 < calculate_inverse_document_frequency matching total.
Proof.
  intros [Hm _]. unfold calculate_inverse_document_frequency.
  pose proof (wrap32_nonneg (total - matching)) as Hw.
  apply IZR_le in Hm.
  rewrite <- ln_1. apply ln_increasing; [Lra.lra|].
  assert (0 < (IZR (wrap32 (total - matching)) + 0.5) / (IZR matching + 0.5)).
  { apply Rdiv_lt_0_compat; Lra.lra. }
  Lra.lra.
Qed.

Lemma idf_no_wrap (matching total : Z) :
  (0 <= matching <= total)%Z -> uint32 total ->
  calculate_inverse_document_frequency matching total
  = ln ((IZR total + 1) / (IZR matching + 0.5)).
Proof.
  intros [Hm Hmt] [_ Ht]. unfold calculate_inverse_document_frequency, wrap32.
  rewrite Z.mod_small by lia. rewrite minus_IZR. apply IZR_le in Hm.
  apply f_equal.
  replace 0.5 with (1 / 2) by Lra.lra. field. Lra.lra.
Qed.

(** The inverse document frequency is positive whatever the counts: when
    more documents match than there are, the difference of the counts
    wraps around instead of going negative.  When no more documents match
    than there are it is [ln ((total + 1) / (matching + 0.5))]. *)
Theorem inverse_document_frequency_positive (matching total : Z) :
  uint32 matching -> uint32 total ->
  0 < calculate_inverse_document_frequency matching total /\
  ((matching <= total)%Z ->
   calculate_inverse_document_frequency matching total
   = ln ((IZR total + 1) / (IZR matching + 0.5))).
Proof.
  intros Hm Ht. split.
  - apply idf_positive, Hm.
  - intros Hle. apply idf_no_wrap; [destruct Hm; lia | exact Ht].
Qed.

Lemma inverse_document_frequency_positive_witness :
  0 < calculate_inverse_document_frequency 7 3 /\
  ((7 <= 3)%Z ->
   calculate_inverse_document_frequency 7 3 = ln ((IZR 3 + 1) / (IZR 7 + 0.5))).
Proof.
  apply (inverse_document_frequency_positive 7 3); split; lia.
Defined.

(** Among counts without wrap-around, a term that matches fewer documents,
    or the same number out of more, has no lesser inverse document
    frequency. *)
Theorem inverse_document_frequency_monotone (matching matching' total total' : Z) :
  (0 <= matching <= matching')%Z -> (matching' <= total)%Z ->
  (total <= total')%Z -> uint32 total' ->
  calculate_inverse_document_frequency matching' total
  <= calculate_inverse_document_frequency matching total'.
Proof.
  intros [H0 Hmm] Hmt Htt [Ht0 Ht1].
  rewrite !idf_no_wrap by (unfold uint32; lia).
  apply IZR_le in H0, Hmm, Hmt, Htt.
  assert (Hpos : 0 < (IZR total + 1) / (IZR matching' + 0.5))
    by (apply Rdiv_lt_0_compat; Lra.lra).
  destruct (Rle_lt_or_eq_dec ((IZR total + 1) / (IZR matching' + 0.5))
              ((IZR total' + 1) / (IZR matching + 0.5))) as [Hlt|Heq].
  - apply Rdiv_le_cross; try Lra.lra. Lra.nra.
  - left. apply ln_increasing; assumption.
  - rewrite Heq. right. reflexivity.
Qed.

Lemma inverse_document_frequency_monotone_witness :
  calculate_inverse_document_frequency 5 10
  <= calculate_inverse_document_frequency 2 20.
Proof.
  apply (inverse_document_frequency_monotone 2 5 10 20); unfold uint32; lia.
Defined.

(** What one term adds lies between 0 and its inverse document frequency
    times [k1 + 1]. *)
Lemma term_score_bounds (ex : Bm25Executor) (idf : R) (data : TermFieldMatchData) :
  0 < _avg_field_length ex -> _k1_param ex = 1.2 -> _b_param ex = 0.75 ->
  0 <= idf ->
  0 <= term_score ex idf data <= idf * (_k1_param ex + 1).
Proof.
  intros Havg Hk Hb Hidf. unfold term_score. rewrite Hk, Hb.
  pose proof (pos_INR (getNumOccs data)) as Hn.
  pose proof (pos_INR (getFieldLength data)) as Hl.
  assert (Hnorm : 0 <= INR (getFieldLength data) / _avg_field_length ex).
  { apply Rdiv_le_lower; [exact Havg | Lra.lra]. }
  set (n := INR (getNumOccs data)) in *.
  set (norm := INR (getFieldLength data) / _avg_field_length ex) in *.
  assert (Hd : 0 < n + 1.2 * (1 - 0.75 + 0.75 * norm)) by Lra.nra.
  split.
  - apply Rdiv_le_lower; [exact Hd | Lra.nra].
  - apply Rdiv_le_upper; [exact Hd | Lra.nra].
Qed.

Lemma execute_terms_bounds (ex : Bm25Executor) (terms : list QueryTerm)
    (doc_id : nat) (score : R) :
  0 < _avg_field_length ex -> _k1_param ex = 1.2 -> _b_param ex = 0.75 ->
  Forall bound_nonneg terms ->
  exists total,
    execute_terms ex terms doc_id score = Some total /\
    score <= total <= score + 2.2 * Rsum (frequencies_at terms doc_id).
Proof.
  intros Havg Hk Hb Hterms. revert score.
  induction Hterms as [|term rest [Hbound Hidf] _ IH]; intros score.
  - exists score. simpl. split; [reflexivity | Lra.lra].
  - simpl. destruct (tfmd term) as [data|]; [|contradiction Hbound; reflexivity].
    destruct (getDocId data =? doc_id)%nat.
    + destruct (IH (score + term_score ex (inverse_doc_freq term) data))
        as [total [E [H1 H2]]].
      exists total. split; [exact E|].
      pose proof (term_score_bounds ex _ data Havg Hk Hb Hidf) as [T0 T1].
      rewrite Hk in T1. simpl. Lra.lra.
    + destruct (IH score) as [total [E [H1 H2]]].
      exists total. split; [exact E|]. simpl. Lra.lra.
Qed.

Lemma make_terms_bound (field : nat) (env : IQueryEnvironment) (avg : R)
    (match_data : MatchData) :
  counts_uint32 env ->
  Forall bound_nonneg
    (_terms (handle_bind_match_data (make field env avg) match_data)).
Proof.
  intros Henv. simpl. apply Forall_map, Forall_flat_map.
  revert Henv. apply Forall_impl. intros term Hterm.
  apply Forall_flat_map. revert Hterm. apply Forall_impl.
  intros term_field [Hm _].
  destruct (field =? getFieldId term_field)%nat; constructor; [|constructor].
  split; simpl; [discriminate|].
  left. apply idf_positive, Hm.
Qed.

(** Once match data is bound, [execute] on an executor built by the
    constructor for a positive average field length gives a score between
    0 and 2.2 times the sum of the inverse document frequencies of the
    terms that are at the document: 0 when none is. *)
Theorem execute_score_bounds (field : nat) (env : IQueryEnvironment) (avg : R)
    (match_data : MatchData) (doc_id : nat) :
  0 < avg -> counts_uint32 env ->
  let ex := handle_bind_match_data (make field env avg) match_data in
  exists score,
    execute ex doc_id = Some score /\
    0 <= score <= 2.2 * Rsum (frequencies_at (_terms ex) doc_id).
Proof.
  intros Havg Henv ex.
  destruct (execute_terms_bounds ex (_terms ex) doc_id 0 Havg eq_refl eq_refl
              (make_terms_bound field env avg match_data Henv))
    as [total [E [H1 H2]]].
  exists total. split; [exact E | Lra.lra].
Qed.

Lemma execute_score_bounds_witness :
  let env := [[mkTermField 1 0 2 10; mkTermField 2 1 3 10]; [mkTermField 1 2 4 10]] in
  let match_data := fun h : nat => mkMatch (7 + h) 3 20 in
  let ex := handle_bind_match_data (make 1 env 10) match_data in
  exists score,
    execute ex 7 = Some score /\
    0 <= score <= 2.2 * Rsum (frequencies_at (_terms ex) 7).
Proof.
  apply (execute_score_bounds 1
           [[mkTermField 1 0 2 10; mkTermField 2 1 3 10]; [mkTermField 1 2 4 10]]
           10 (fun h : nat => mkMatch (7 + h) 3 20) 7).
  - Lra.lra.
  - repeat constructor; simpl; lia.
Defined.

(** With the parameters the constructor sets, a term with no fewer
    occurrences in a field that is no longer adds no less to the score. *)
Theorem term_score_monotone (field : nat) (env : IQueryEnvironment) (avg idf : R)
    (data data' : TermFieldMatchData) :
  0 < avg -> 0 <= idf ->
  (getNumOccs data <= getNumOccs data')%nat ->
  (getFieldLength data' <= getFieldLength data)%nat ->
  term_score (make field env avg) idf data
  <= term_score (make field env avg) idf data'.
Proof.
  intros Havg Hidf Hn Hl. unfold term_score. simpl.
  apply le_INR in Hn, Hl.
  pose proof (pos_INR (getNumOccs data)) as Hn0.
  pose proof (pos_INR (getFieldLength data')) as Hl0.
  set (n := INR (getNumOccs data)) in *.
  set (n' := INR (getNumOccs data')) in *.
  assert (Hnorm' : 0 <= INR (getFieldLength data') / avg)
    by (apply Rdiv_le_lower; [exact Havg | Lra.lra]).
  assert (Hnorm : INR (getFieldLength data') / avg
                  <= INR (getFieldLength data) / avg)
    by (apply Rdiv_le_cross; try assumption; Lra.nra).
  set (norm := INR (getFieldLength data) / avg) in *.
  set (norm' := INR (getFieldLength data') / avg) in *.
  apply Rdiv_le_cross; try Lra.nra.
  assert (H1 : n * (1 - 0.75 + 0.75 * norm') <= n' * (1 - 0.75 + 0.75 * norm))
    by Lra.nra.
  assert (H2 : n * (n' + 1.2 * (1 - 0.75 + 0.75 * norm'))
               <= n' * (n + 1.2 * (1 - 0.75 + 0.75 * norm))) by Lra.nra.
  Lra.nra.
Qed.
Lemma term_score_monotone_witness :
  term_score (make 1 [] 10) 2 (mkMatch 7 3 20)
  <= term_score (make 1 [] 10) 2 (mkMatch 7 5 15).
Proof.
  apply (term_score_monotone 1 [] 10 2 (mkMatch 7 3 20) (mkMatch 7 5 15)).
  - Lra.lra.
  - Lra.lra.
  - simpl. lia.
  - simpl. lia.
Defined.
End Bm25.

(** * Worked examples *)

(** A non-strict AND over (e=0.1, c=10) and (e=0.5, c=1) runs the cheap
    child first: 1 + 0.5 * 10. *)
Example And_cost_of_two :
  FlowMixin.cost_of AndFlow.t flow.DefaultAdapter
    [flow.mkBlueprint (1 # 10) 10 10; flow.mkBlueprint (5 # 10) 1 1] false
  == 6.
Proof. reflexivity. Qed.

(** An OR over three children of estimate 0.2: 1 - 0.8^3. *)
Example Or_estimate_of_three :
  FlowMixin.estimate_of OrFlow.t flow.DefaultAdapter
    [flow.mkBlueprint (2 # 10) 1 1; flow.mkBlueprint (2 # 10) 1 1;
     flow.mkBlueprint (2 # 10) 1 1]
  == 488 # 1000.
Proof. reflexivity. Qed.

(** A child that never matches brings the estimate of an AND to 0. *)
Example And_estimate_of_never :
  FlowMixin.estimate_of AndFlow.t flow.DefaultAdapter
    [half_cost1; never_cost1; half_cost2]
  == 0.
Proof. reflexivity. Qed.

(** The AND-NOT sort keeps the positive filter first although MinOrCost
    would run the exclusion before it. *)
Example AndNot_sort_two :
  flow.MinOrCost flow.DefaultAdapter
    (flow.mkBlueprint (5 # 10) 1 1) (flow.mkBlueprint (9 # 10) 2 2) = true /\
  AndNotFlow.sort flow.DefaultAdapter
    [flow.mkBlueprint (9 # 10) 2 2; flow.mkBlueprint (5 # 10) 1 1] false
  = [flow.mkBlueprint (9 # 10) 2 2; flow.mkBlueprint (5 # 10) 1 1].
Proof. split; reflexivity. Qed.

(** A strict AND moves the child whose strict cost is cheapest to carry to
    the front: here the last of the MinAndCost order. *)
Example And_sort_strict_three :
  AndFlow.sort flow.DefaultAdapter
    [flow.mkBlueprint (1 # 2) 2 10; flow.mkBlueprint (1 # 2) 1 10;
     flow.mkBlueprint (1 # 10) 4 1] true
  = [flow.mkBlueprint (1 # 10) 4 1; flow.mkBlueprint (1 # 2) 1 10;
     flow.mkBlueprint (1 # 2) 2 10].
Proof. reflexivity. Qed.
